(** * Balance Engine: shallow embedding of the PuLP formulations

    The repository builds linear programs with PuLP:
    - [lp_model] (src/examples/engine.py and src/plugins/mcp/server.py):
      inventory balancing with shortage and excess variables;
    - the multi-period production plan of src/examples/multi-period.py;
    - the production mix of src/examples/product-mix.py;
    - the key reconstruction of [optimize_inventory] (server.py).

    Python dictionaries that are only looked up are gmaps; a lookup that
    misses is a [KeyError], modelled by [None] in the option monad.
    Python numbers are rationals [Q]. The LP solver itself is external:
    it is a parameter of [lp_model]. *)

From Stdlib Require Import QArith Qminmax Lqa String Ascii.
From stdpp Require Import base list gmap strings.

Open Scope Q_scope.

(** ** PuLP: linear expressions, constraints, problems *)

Module Lp.

(** An affine expression as the Python code builds it: numbers, variables,
    [+], [-] and multiplication by a number. *)
Inductive expr (V : Type) : Type :=
| Const (q : Q)
| Var (v : V)
| Add (e1 e2 : expr V)
| Sub (e1 e2 : expr V)
| Scale (q : Q) (e : expr V).
Arguments Const {V} q.
Arguments Var {V} v.
Arguments Add {V} e1 e2.
Arguments Sub {V} e1 e2.
Arguments Scale {V} q e.

(** [pulp.lpSum] *)
Definition lpSum {V} (es : list (expr V)) : expr V :=
  fold_right Add (Const 0) es.

Inductive sense := EQ | LE | GE.

(** [model += (lhs <op> rhs, name)] *)
Record constraint (V : Type) := mkConstraint {
  cname : string;
  clhs : expr V;
  csense : sense;
  crhs : expr V
}.
Arguments mkConstraint {V} cname clhs csense crhs.
Arguments cname {V} c.
Arguments clhs {V} c.
Arguments csense {V} c.
Arguments crhs {V} c.

Inductive category := Continuous | Integer.

(** [pulp.LpVariable(name, lowBound, upBound, cat)] *)
Record vardecl (V : Type) := mkVar {
  vvar : V;
  vlow : option Q;
  vup : option Q;
  vcat : category
}.
Arguments mkVar {V} vvar vlow vup vcat.
Arguments vvar {V} v.
Arguments vlow {V} v.
Arguments vup {V} v.
Arguments vcat {V} v.

Inductive objsense := LpMinimize | LpMaximize.

(** The name PuLP stores a row under ([LpAffineExpression.name], set by
    [LpProblem.addConstraint]): each of the characters ["-+[] "] becomes
    ["_"]. *)
Definition pulp_name_char (c : ascii) : ascii :=
  if (Ascii.eqb c "-" || Ascii.eqb c "+" || Ascii.eqb c "[" ||
      Ascii.eqb c "]" || Ascii.eqb c " ")%bool
  then "_"%char else c.

Fixpoint pulp_name (s : string) : string :=
  match s with
  | EmptyString => EmptyString
  | String c s' => String (pulp_name_char c) (pulp_name s')
  end.

Record problem (V : Type) := mkProblem {
  pname : string;
  psense : objsense;
  pvars : list (vardecl V);
  pobj : expr V;
  pcons : list (constraint V)
}.
Arguments mkProblem {V} pname psense pvars pobj pcons.
Arguments pname {V} p.
Arguments psense {V} p.
Arguments pvars {V} p.
Arguments pobj {V} p.
Arguments pcons {V} p.

Section Semantics.
Context {V : Type}.

(** Value of an expression under a total assignment. *)
Fixpoint eval (s : V -> Q) (e : expr V) : Q :=
  match e with
  | Const q => q
  | Var v => s v
  | Add e1 e2 => eval s e1 + eval s e2
  | Sub e1 e2 => eval s e1 - eval s e2
  | Scale q e => q * eval s e
  end.

(** The variables of the [LpAffineExpression] PuLP builds: multiplying
    an expression by the number 0 gives the empty expression
    ([LpAffineExpression.__mul__]); [+] and [-] keep the variables of
    both sides. *)
Fixpoint expr_vars (e : expr V) : list V :=
  match e with
  | Const _ => []
  | Var v => [v]
  | Add e1 e2 => expr_vars e1 ++ expr_vars e2
  | Sub e1 e2 => expr_vars e1 ++ expr_vars e2
  | Scale q e => if Qeq_bool q 0 then [] else expr_vars e
  end.

(** [pulp.value(e)] after a solve ([LpAffineExpression.value]): [None] as
    soon as one of its variables has no value; a term multiplied by 0 is
    no longer part of the expression. *)
Fixpoint value (s : V -> option Q) (e : expr V) : option Q :=
  match e with
  | Const q => Some q
  | Var v => s v
  | Add e1 e2 => q1 ← value s e1; q2 ← value s e2; Some (q1 + q2)
  | Sub e1 e2 => q1 ← value s e1; q2 ← value s e2; Some (q1 - q2)
  | Scale q e => if Qeq_bool q 0 then Some 0 else (q1 ← value s e; Some (q * q1))
  end.

(** [pulp.value(model.objective)] after [model.solve()]: for the solve,
    PuLP adds its variable [__dummy] to an objective without variables
    ([LpProblem.fixObjective]); it stays in the objective with no value,
    so the value is [None]. *)
Definition objective_value (s : V -> option Q) (e : expr V) : option Q :=
  match expr_vars e with
  | [] => None
  | _ => value s e
  end.

(** [LpProblem.addConstraint] applied to the rows in turn, [names]
    holding the names already in [model.constraints]: a row whose name is
    already there raises [PulpError("overlapping constraint names")]
    ([noOverlap] is on by default). *)
Fixpoint add_constraints (names : list string) (cs : list (constraint V))
    : option (list (constraint V)) :=
  match cs with
  | [] => Some []
  | c :: cs' =>
      let name := pulp_name (cname c) in
      if decide (name ∈ names) then None
      else rest ← add_constraints (name :: names) cs'; Some (c :: rest)
  end.

Definition sat_constraint (s : V -> Q) (c : constraint V) : Prop :=
  match csense c with
  | EQ => eval s (clhs c) == eval s (crhs c)
  | LE => eval s (clhs c) <= eval s (crhs c)
  | GE => eval s (clhs c) >= eval s (crhs c)
  end.

Definition is_integral (q : Q) : Prop := (Qden (Qred q) = 1)%positive.

Definition sat_vardecl (s : V -> Q) (d : vardecl V) : Prop :=
  (match vlow d with Some l => l <= s (vvar d) | None => True end) /\
  (match vup d with Some u => s (vvar d) <= u | None => True end) /\
  (match vcat d with Integer => is_integral (s (vvar d)) | Continuous => True end).

Definition feasible (p : problem V) (s : V -> Q) : Prop :=
  Forall (sat_vardecl s) (pvars p) /\ Forall (sat_constraint s) (pcons p).

Definition better (p : problem V) (a b : Q) : Prop :=
  match psense p with LpMinimize => a <= b | LpMaximize => b <= a end.

Definition optimal (p : problem V) (s : V -> Q) : Prop :=
  feasible p s /\
  forall s', feasible p s' -> better p (eval s (pobj p)) (eval s' (pobj p)).

(** PuLP hands a problem to the MILP path of the solver as soon as one of
    its variables is an integer variable. *)
Definition isMIP (p : problem V) : bool :=
  existsb (fun d => match vcat d with Integer => true | Continuous => false end)
          (pvars p).

End Semantics.

Inductive lpstatus := Optimal | NotSolved | Infeasible | Unbounded | Undefined.

End Lp.

Import Lp.

(** A Python dict built by successive assignments [d[k] = v]. *)
Definition dict_of_list {K V} `{Countable K} (l : list (K * V)) : gmap K V :=
  foldl (fun m kv => <[kv.1 := kv.2]> m) ∅ l.

(** [for x in l:] where each iteration adds a list of rows and may raise. *)
Fixpoint for_each {A B} (f : A -> option (list B)) (l : list A) : option (list B) :=
  match l with
  | [] => Some []
  | x :: l' => r ← f x; rest ← for_each f l'; Some (r ++ rest)
  end.

(** Python's [enumerate]. *)
Definition enumerate {A} (l : list A) : list (nat * A) :=
  zip (seq 0 (length l)) l.

(** ** The inventory-balance model [lp_model] *)

(** The three families of [pulp.LpVariable.dicts]: keys [(i, t)]. *)
Inductive ivar :=
| Inventory (i t : string)
| Shortage (i t : string)
| Excess (i t : string).

(** The result dictionary of [lp_model]. *)
Record lp_results := mkResults {
  status : lpstatus;
  total_cost : option Q;
  inventory : gmap (string * string) (option Q);
  shortage : gmap (string * string) (option Q);
  excess : gmap (string * string) (option Q)
}.

(** The external solver: status and the [.value()] of every variable. *)
Definition solver : Type := problem ivar -> lpstatus * (ivar -> option Q).

Module Engine.
Section LpModel.
(** The arguments of [lp_model] (src/examples/engine.py, lines 11-115). *)
Variables (products periods : list string)
          (initial_inventory : gmap string Q)
          (effective_demand yielded_supply : gmap (string * string) Q)
          (safety_stock_target : gmap string Q)
          (shortage_cost excess_cost : Q).

(** [[(i, t) for i in products for t in periods]] *)
Definition keys : list (string * string) := list_prod products periods.

Definition decls (mk : string -> string -> ivar) : list (vardecl ivar) :=
  map (fun '(i, t) => mkVar (mk i t) (Some 0) None Continuous) keys.

(** Objective, lines 58-62. *)
Definition objective : expr ivar :=
  lpSum (map (fun '(i, t) =>
    Add (Scale shortage_cost (Var (Shortage i t)))
        (Scale excess_cost (Var (Excess i t)))) keys).

(** Body of the double loop, lines 67-101. *)
Definition period_constraints (i : string) (t_idx : nat) (t : string)
    : option (list (constraint ivar)) :=
  balance ←
    (if decide (t_idx = 0%nat) then
       ii ← initial_inventory !! i;
       ys ← yielded_supply !! (i, t);
       ed ← effective_demand !! (i, t);
       Some (mkConstraint ("Balance_" +:+ i +:+ "_" +:+ t)
               (Var (Inventory i t)) EQ
               (Add (Const (ii + ys - ed)) (Var (Shortage i t))))
     else
       prev_t ← periods !! (t_idx - 1)%nat;
       ys ← yielded_supply !! (i, t);
       ed ← effective_demand !! (i, t);
       Some (mkConstraint ("Balance_" +:+ i +:+ "_" +:+ t)
               (Var (Inventory i t)) EQ
               (Add (Sub (Add (Var (Inventory i prev_t)) (Const ys)) (Const ed))
                    (Var (Shortage i t)))));
  sst ← safety_stock_target !! i;
  let excess_calc :=
    mkConstraint ("Excess_Calc_" +:+ i +:+ "_" +:+ t)
      (Var (Excess i t)) GE (Sub (Var (Inventory i t)) (Const sst)) in
  shortage_calc ←
    (if decide (t_idx = 0%nat) then
       ed ← effective_demand !! (i, t);
       ii ← initial_inventory !! i;
       ys ← yielded_supply !! (i, t);
       Some (mkConstraint ("Shortage_Calc_" +:+ i +:+ "_" +:+ t)
               (Var (Shortage i t)) GE (Const (ed - (ii + ys))))
     else
       prev_t ← periods !! (t_idx - 1)%nat;
       ed ← effective_demand !! (i, t);
       ys ← yielded_supply !! (i, t);
       Some (mkConstraint ("Shortage_Calc_" +:+ i +:+ "_" +:+ t)
               (Var (Shortage i t)) GE
               (Sub (Const ed) (Add (Var (Inventory i prev_t)) (Const ys)))));
  Some [balance; excess_calc; shortage_calc].

Definition constraints : option (list (constraint ivar)) :=
  for_each (fun i =>
    for_each (fun '(t_idx, t) => period_constraints i t_idx t) (enumerate periods))
  products.

(** The model handed to [model.solve()], lines 30-101. The rows are
    built by the loop, where a missing key raises [KeyError], and added
    by [model += ...], where a repeated name raises [PulpError]; the
    Python code adds each row as soon as it is built, and either way the
    formulation fails exactly when one lookup misses or one name
    repeats. *)
Definition lp_model_problem : option (problem ivar) :=
  cons ← constraints;
  cons ← add_constraints [] cons;
  Some (mkProblem "Inventory_Management" LpMinimize
          (decls Inventory ++ decls Shortage ++ decls Excess) objective cons).

(** [lp_model]: formulation, solve, result dictionary (lines 103-115). *)
Definition lp_model (solve : solver) : option lp_results :=
  P ← lp_model_problem;
  let '(st, val) := solve P in
  Some (mkResults st (objective_value val (pobj P))
          (dict_of_list (map (fun '(i, t) => ((i, t), val (Inventory i t))) keys))
          (dict_of_list (map (fun '(i, t) => ((i, t), val (Shortage i t))) keys))
          (dict_of_list (map (fun '(i, t) => ((i, t), val (Excess i t))) keys))).

End LpModel.
End Engine.

Module Server.
Section LpModel.
(** The arguments of [lp_model] (src/plugins/mcp/server.py, lines 105-209). *)
Variables (products periods : list string)
          (initial_inventory : gmap string Q)
          (effective_demand yielded_supply : gmap (string * string) Q)
          (safety_stock_target : gmap string Q)
          (shortage_cost excess_cost : Q).

(** [[(i, t) for i in products for t in periods]] *)
Definition keys : list (string * string) := list_prod products periods.

Definition decls (mk : string -> string -> ivar) : list (vardecl ivar) :=
  map (fun '(i, t) => mkVar (mk i t) (Some 0) None Continuous) keys.

(** Objective, lines 152-156. *)
Definition objective : expr ivar :=
  lpSum (map (fun '(i, t) =>
    Add (Scale shortage_cost (Var (Shortage i t)))
        (Scale excess_cost (Var (Excess i t)))) keys).

(** Body of the double loop, lines 161-195. *)
Definition period_constraints (i : string) (t_idx : nat) (t : string)
    : option (list (constraint ivar)) :=
  balance ←
    (if decide (t_idx = 0%nat) then
       ii ← initial_inventory !! i;
       ys ← yielded_supply !! (i, t);
       ed ← effective_demand !! (i, t);
       Some (mkConstraint ("Balance_" +:+ i +:+ "_" +:+ t)
               (Var (Inventory i t)) EQ
               (Add (Const (ii + ys - ed)) (Var (Shortage i t))))
     else
       prev_t ← periods !! (t_idx - 1)%nat;
       ys ← yielded_supply !! (i, t);
       ed ← effective_demand !! (i, t);
       Some (mkConstraint ("Balance_" +:+ i +:+ "_" +:+ t)
               (Var (Inventory i t)) EQ
               (Add (Sub (Add (Var (Inventory i prev_t)) (Const ys)) (Const ed))
                    (Var (Shortage i t)))));
  sst ← safety_stock_target !! i;
  let excess_calc :=
    mkConstraint ("Excess_Calc_" +:+ i +:+ "_" +:+ t)
      (Var (Excess i t)) GE (Sub (Var (Inventory i t)) (Const sst)) in
  shortage_calc ←
    (if decide (t_idx = 0%nat) then
       ed ← effective_demand !! (i, t);
       ii ← initial_inventory !! i;
       ys ← yielded_supply !! (i, t);
       Some (mkConstraint ("Shortage_Calc_" +:+ i +:+ "_" +:+ t)
               (Var (Shortage i t)) GE (Const (ed - (ii + ys))))
     else
       prev_t ← periods !! (t_idx - 1)%nat;
       ed ← effective_demand !! (i, t);
       ys ← yielded_supply !! (i, t);
       Some (mkConstraint ("Shortage_Calc_" +:+ i +:+ "_" +:+ t)
               (Var (Shortage i t)) GE
               (Sub (Const ed) (Add (Var (Inventory i prev_t)) (Const ys)))));
  Some [balance; excess_calc; shortage_calc].

Definition constraints : option (list (constraint ivar)) :=
  for_each (fun i =>
    for_each (fun '(t_idx, t) => period_constraints i t_idx t) (enumerate periods))
  products.

(** The model handed to [model.solve()], lines 124-195 (rows built, then
    added, as in [Engine]). *)
Definition lp_model_problem : option (problem ivar) :=
  cons ← constraints;
  cons ← add_constraints [] cons;
  Some (mkProblem "Inventory_Management" LpMinimize
          (decls Inventory ++ decls Shortage ++ decls Excess) objective cons).

(** [lp_model]: formulation, solve, result dictionary (lines 197-209). *)
Definition lp_model (solve : solver) : option lp_results :=
  P ← lp_model_problem;
  let '(st, val) := solve P in
  Some (mkResults st (objective_value val (pobj P))
          (dict_of_list (map (fun '(i, t) => ((i, t), val (Inventory i t))) keys))
          (dict_of_list (map (fun '(i, t) => ((i, t), val (Shortage i t))) keys))
          (dict_of_list (map (fun '(i, t) => ((i, t), val (Excess i t))) keys))).

End LpModel.
End Server.

Definition X_init : gmap string Q := {[ "X" := 0 ]}.
Definition X_dem : gmap (string * string) Q := {[ ("X", "T1") := 100 ]}.
Definition X_sup : gmap (string * string) Q := {[ ("X", "T1") := 60 ]}.
Definition X_sst : gmap string Q := {[ "X" := 0 ]}.

Definition X_problem :=
  Engine.lp_model_problem ["X"] ["T1"] X_init X_dem X_sup X_sst 5 1.

(** The formulation of that scenario, written out. *)
Definition X_P : problem ivar :=
  mkProblem "Inventory_Management" LpMinimize
    [mkVar (Inventory "X" "T1") (Some 0) None Continuous;
     mkVar (Shortage "X" "T1") (Some 0) None Continuous;
     mkVar (Excess "X" "T1") (Some 0) None Continuous]
    (Add (Add (Scale 5 (Var (Shortage "X" "T1")))
              (Scale 1 (Var (Excess "X" "T1")))) (Const 0))
    [mkConstraint "Balance_X_T1" (Var (Inventory "X" "T1")) EQ
       (Add (Const (0 + 60 - 100)) (Var (Shortage "X" "T1")));
     mkConstraint "Excess_Calc_X_T1" (Var (Excess "X" "T1")) GE
       (Sub (Var (Inventory "X" "T1")) (Const 0));
     mkConstraint "Shortage_Calc_X_T1" (Var (Shortage "X" "T1")) GE
       (Const (100 - (0 + 60)))].

(** The assignment of the expected answer. *)
Definition X_sol (v : ivar) : Q :=
  match v with
  | Inventory _ _ => 0
  | Shortage _ _ => 40
  | Excess _ _ => 0
  end.

(** A solver that reports [Optimal] on [P] together with an optimal
    assignment of [P]. *)
Definition solves_optimally (solve : solver) (P : problem ivar) : Prop :=
  fst (solve P) = Optimal /\
  exists s, optimal P s /\ forall v, snd (solve P) v = Some (s v).

(** The balance equality row of a constraint: an equality whose left-hand
    side is the variable [inventory[i, t]]. *)
Definition balance_key (c : constraint ivar) : option (string * string) :=
  match csense c, clhs c with
  | EQ, Var (Inventory i t) => Some (i, t)
  | _, _ => None
  end.



(** ** Downstream cost aggregation (engine.py 199-206, server.py 298-309) *)

(** [d.get(k, default)] on a result dictionary whose values may be [None]. *)
Definition dict_get (d : gmap (string * string) (option Q)) (k : string * string)
    (default : option Q) : option Q :=
  match d !! k with Some v => v | None => default end.

(** Python's [x or y] for a number or [None]: [None] and zero are falsy. *)
Definition py_or (x : option Q) (y : Q) : Q :=
  match x with
  | Some q => if Qeq_bool q 0 then y else q
  | None => y
  end.

(** [sum(cost * (d.get((i, t), 0) or 0) for i in products for t in periods)] *)
Definition aggregate_cost (products periods : list string) (cost : Q)
    (d : gmap (string * string) (option Q)) : Q :=
  foldl Qplus 0
    (map (fun '(i, t) => cost * py_or (dict_get d (i, t) (Some 0)) 0)
         (list_prod products periods)).

Definition total_shortage_cost products periods shortage_cost (r : lp_results) : Q :=
  aggregate_cost products periods shortage_cost (shortage r).

Definition total_excess_cost products periods excess_cost (r : lp_results) : Q :=
  aggregate_cost products periods excess_cost (excess r).

(** ** Key reconstruction in [optimize_inventory] (server.py 245-261) *)

Definition is_underscore (c : ascii) : bool := Ascii.eqb c "_"%char.

(** The text before and after the first underscore, if any. *)
Fixpoint split_once (s : string) : option (string * string) :=
  match s with
  | EmptyString => None
  | String c s' =>
      if is_underscore c then Some (EmptyString, s')
      else match split_once s' with
           | Some (a, b) => Some (String c a, b)
           | None => None
           end
  end.

(** [s.split('_', 1)] *)
Definition py_split1 (s : string) : list string :=
  match split_once s with
  | Some (a, b) => [a; b]
  | None => [s]
  end.

(** [s.split('_')[0]]: the text before the first underscore. *)
Definition py_split_head (s : string) : string :=
  match split_once s with
  | Some (a, _) => a
  | None => s
  end.

(** ['_' in s] *)
Fixpoint py_in_underscore (s : string) : bool :=
  match s with
  | EmptyString => false
  | String c s' => is_underscore c || py_in_underscore s'
  end.

(** One iteration of the loop: [None] when [len(parts) != 2]. *)
Definition split_key (key : string) : option (string * string) :=
  match py_split1 key with
  | [p0; p1] =>
      let product := p0 +:+ "_" +:+ py_split_head p1 in
      let period :=
        if py_in_underscore p1
        then match py_split1 p1 with
             | [_; rest] => rest
             | _ => p1 (* not reached: [p1] contains an underscore *)
             end
        else p1 in
      Some (product, period)
  | _ => None
  end.

(** The loops building [demand_tuples] and [supply_tuples] from the items
    of the flattened dictionary, in iteration order. *)
Definition to_tuples (items : list (string * Q)) : gmap (string * string) Q :=
  foldl (fun acc '(key, value) =>
           match split_key key with
           | Some pt => <[pt := value]> acc
           | None => acc
           end) ∅ items.

(** [optimize_inventory] up to the call of [lp_model] (lines 245-273). *)
Definition optimize_inventory (solve : solver) (products periods : list string)
    (initial_inventory : gmap string Q)
    (effective_demand yielded_supply : list (string * Q))
    (safety_stock_target : gmap string Q) (shortage_cost excess_cost : Q)
    : option lp_results :=
  let demand_tuples := to_tuples effective_demand in
  let supply_tuples := to_tuples yielded_supply in
  Server.lp_model products periods initial_inventory demand_tuples supply_tuples
    safety_stock_target shortage_cost excess_cost solve.

(** A caller's flattening of a [(product, period) -> value] mapping into
    ["product_period"] keys. *)
Definition flatten (m : gmap (string * string) Q) : list (string * Q) :=
  map (fun '((p, t), v) => (p +:+ "_" +:+ t, v)) (map_to_list m).

Fixpoint count_underscores (s : string) : nat :=
  match s with
  | EmptyString => 0
  | String c s' => (if is_underscore c then 1 else 0) + count_underscores s'
  end.

(** ** The production-mix model (src/examples/product-mix.py, 35-64) *)

Inductive mvar :=
| Z (i j : string)  (* raw material [i] used in product [j] *)
| Y (j : string).   (* amount of product [j] *)

(** The rows are added with [model += ...] after all are built; as in
    [Engine.lp_model_problem], this fails exactly when the source does. *)
Definition mix_model (raw_materials products : list string)
    (octane_number material_cost max_available : gmap string Q)
    (octane_requirement selling_price demand : gmap string Q)
    : option (problem mvar) :=
  let z := map (fun '(i, j) => mkVar (Z i j) (Some 0) None Continuous)
               (list_prod raw_materials products) in
  y ← mapM (fun j => d ← demand !! j; Some (mkVar (Y j) (Some 0) (Some d) Continuous))
           products;
  revenue ← lpSum <$> mapM (fun j => sp ← selling_price !! j;
                                     Some (Scale sp (Var (Y j)))) products;
  material_costs ← lpSum <$> mapM (fun '(i, j) => mc ← material_cost !! i;
                                     Some (Scale mc (Var (Z i j))))
                                  (list_prod raw_materials products);
  availability ← mapM (fun i => ma ← max_available !! i;
      Some (mkConstraint ("Material_Availability_" +:+ i)
              (lpSum (map (fun j => Var (Z i j)) products)) LE (Const ma)))
    raw_materials;
  let mass_balance :=
    map (fun j => mkConstraint ("Mass_Balance_" +:+ j)
                    (lpSum (map (fun i => Var (Z i j)) raw_materials)) EQ (Var (Y j)))
        products in
  octane ← mapM (fun j =>
      weighted_octane ← lpSum <$> mapM (fun i => on ← octane_number !! i;
                                          Some (Scale on (Var (Z i j)))) raw_materials;
      req ← octane_requirement !! j;
      Some (mkConstraint ("Octane_Requirement_" +:+ j) weighted_octane GE
              (Scale req (Var (Y j)))))
    products;
  cons ← add_constraints [] (availability ++ mass_balance ++ octane);
  Some (mkProblem "Production_Mix_Optimization" LpMaximize (z ++ y)
          (Sub revenue material_costs) cons).

(** The data of [main]. *)
Definition mix_main : option (problem mvar) :=
  mix_model ["A"; "B"; "C"] ["Super"; "Unleaded"; "Super_Unleaded"]
    {[ "A" := 120; "B" := 90; "C" := 130 ]}
    {[ "A" := 38; "B" := 42; "C" := 105 ]}
    {[ "A" := 1000; "B" := 1200; "C" := 700 ]}
    {[ "Super" := 94; "Unleaded" := 92; "Super_Unleaded" := 96 ]}
    {[ "Super" := 85; "Unleaded" := 80; "Super_Unleaded" := 88 ]}
    {[ "Super" := 800; "Unleaded" := 1100; "Super_Unleaded" := 500 ]}.

(** ** The multi-period production plan (src/examples/multi-period.py, 31-114) *)

Inductive pvar :=
| X (p t : string)    (* production of [p] in period [t] *)
| Inv (p t : string). (* inventory of [p] at the end of [t] *)

(** Rows built first, then added, as in [mix_model]. *)
Definition multi_period_model (products periods : list string)
    (initial_inventory safety_stock production_cost : gmap string Q)
    (holding_cost_rate : Q) (demand : gmap (string * string) Q)
    (machine_capacity labor_capacity machine_hours labor_hours : gmap string Q)
    : option (problem pvar) :=
  hc ← mapM (fun p => c ← production_cost !! p; Some (p, c * holding_cost_rate))
            products;
  let holding_cost : gmap string Q := dict_of_list hc in
  let keys := list_prod products periods in
  let x := map (fun '(p, t) => mkVar (X p t) (Some 0) None Integer) keys in
  let inv := map (fun '(p, t) => mkVar (Inv p t) (Some 0) None Integer) keys in
  total_production_cost ← lpSum <$> mapM (fun '(p, t) =>
      c ← production_cost !! p; Some (Scale c (Var (X p t)))) keys;
  total_holding_cost ← lpSum <$> mapM (fun '(p, t) =>
      h ← holding_cost !! p; Some (Scale h (Var (Inv p t)))) keys;
  balance ← for_each (fun p =>
      for_each (fun '(i, t) =>
        if decide (i = 0%nat) then
          ii ← initial_inventory !! p; d ← demand !! (p, t);
          Some [mkConstraint ("Inventory_Balance_" +:+ p +:+ "_" +:+ t)
                  (Var (Inv p t)) EQ (Sub (Add (Const ii) (Var (X p t))) (Const d))]
        else
          prev_t ← periods !! (i - 1)%nat; d ← demand !! (p, t);
          Some [mkConstraint ("Inventory_Balance_" +:+ p +:+ "_" +:+ t)
                  (Var (Inv p t)) EQ
                  (Sub (Add (Var (Inv p prev_t)) (Var (X p t))) (Const d))])
        (enumerate periods)) products;
  capacity ← for_each (fun t =>
      mterms ← mapM (fun p => h ← machine_hours !! p; Some (Scale h (Var (X p t))))
                    products;
      mc ← machine_capacity !! t;
      lterms ← mapM (fun p => h ← labor_hours !! p; Some (Scale h (Var (X p t))))
                    products;
      lc ← labor_capacity !! t;
      Some [mkConstraint ("Machine_Capacity_" +:+ t) (lpSum mterms) LE (Const mc);
            mkConstraint ("Labor_Capacity_" +:+ t) (lpSum lterms) LE (Const lc)])
    periods;
  safety ← mapM (fun p =>
      last_t ← last periods; ss ← safety_stock !! p;
      Some (mkConstraint ("Safety_Stock_" +:+ p) (Var (Inv p last_t)) GE (Const ss)))
    products;
  cons ← add_constraints [] (balance ++ capacity ++ safety);
  Some (mkProblem "Multi_Period_Production_Planning" LpMinimize (x ++ inv)
          (Add total_production_cost total_holding_cost) cons).

(** The data of [main]. *)
Definition multi_period_main : option (problem pvar) :=
  multi_period_model ["A"; "B"] ["January"; "February"; "March"]
    {[ "A" := 100; "B" := 120 ]} {[ "A" := 130; "B" := 110 ]}
    {[ "A" := 20; "B" := 25 ]} (2 # 100)
    {[ ("A", "January") := 700; ("A", "February") := 900; ("A", "March") := 1000;
       ("B", "January") := 800; ("B", "February") := 600; ("B", "March") := 900 ]}
    {[ "January" := 3000; "February" := 2800; "March" := 3600 ]}
    {[ "January" := 2500; "February" := 2300; "March" := 2400 ]}
    {[ "A" := 3 # 2; "B" := 8 # 5 ]} {[ "A" := 11 # 10; "B" := 6 # 5 ]}.

(** The value a result dictionary holds, zero when absent or [None]. *)
Definition result_or_zero (v : option (option Q)) : Q :=
  match v with Some (Some q) => q | _ => 0 end.

(** A solver that returns nothing. *)
Definition no_solver : solver := fun _ => (NotSolved, fun _ => None).

(** ** Reporting after a solve *)

(** Python's [sum(...)]: left to right, starting from 0. *)
Definition py_sum (l : list Q) : Q := foldl Qplus 0 l.

(** Python's [a / b]: [ZeroDivisionError] when [b] is zero. *)
Definition py_div (a b : Q) : option Q :=
  if Qeq_bool b 0 then None else Some (a / b).

(** product-mix.py, [main], lines 82-85: the tons of raw material [i] used
    and its utilisation in percent of [max_available[i]]. *)
Definition mix_material_usage (products : list string)
    (max_available : gmap string Q) (s : mvar -> Q) (i : string)
    : option (Q * Q) :=
  let total_used := py_sum (map (fun j => s (Z i j)) products) in
  ma ← max_available !! i;
  u ← py_div total_used ma;
  Some (total_used, u * 100).

(** product-mix.py, [main], lines 89-99: the percentage of each raw material
    in the mix of [j], when [y[j].value() > 0.001]; [None] is the branch
    printing "Not produced". *)
Definition mix_composition (raw_materials : list string) (s : mvar -> Q)
    (j : string) : option (list Q) :=
  if Qlt_le_dec (1 # 1000) (s (Y j)) then
    let total_product := s (Y j) in
    Some (map (fun i => s (Z i j) / total_product * 100) raw_materials)
  else None.

(** product-mix.py, [main], lines 102-106: requirement and achieved octane
    of a produced [j] ([Some None] when [j] is not produced). *)
Definition octane_verification (raw_materials : list string)
    (octane_number octane_requirement : gmap string Q) (s : mvar -> Q)
    (j : string) : option (option (Q * Q)) :=
  if Qlt_le_dec (1 # 1000) (s (Y j)) then
    let total_product := s (Y j) in
    terms ← mapM (fun i => on ← octane_number !! i; Some (on * s (Z i j)))
                 raw_materials;
    let achieved_octane := py_sum terms / total_product in
    req ← octane_requirement !! j;
    Some (Some (req, achieved_octane))
  else Some None.

(** product-mix.py, [plot_results], lines 150-158: the dictionary
    [proportions[i, j]]. *)
Definition proportions (raw_materials products : list string) (s : mvar -> Q)
    : gmap (string * string) Q :=
  dict_of_list (concat (map (fun j =>
    if Qlt_le_dec (1 # 1000) (s (Y j)) then
      let total_product := s (Y j) in
      map (fun i => ((i, j), s (Z i j) / total_product)) raw_materials
    else map (fun i => ((i, j), 0)) raw_materials) products)).

(** [plot_results], lines 172-175: the octane annotated above a produced
    [j]. *)
Definition plot_weighted_octane (raw_materials : list string)
    (octane_number : gmap string Q) (prop : gmap (string * string) Q)
    (j : string) : option Q :=
  terms ← mapM (fun i => on ← octane_number !! i; p ← prop !! (i, j);
                         Some (on * p)) raw_materials;
  Some (py_sum terms).

(** multi-period.py, [main], lines 147-151: machine hours used in [t], their
    utilisation in percent, labour hours used, their utilisation. *)
Definition resource_utilization (products : list string)
    (machine_capacity labor_capacity machine_hours labor_hours : gmap string Q)
    (s : pvar -> Q) (t : string) : option (Q * Q * Q * Q) :=
  mterms ← mapM (fun p => h ← machine_hours !! p; Some (h * s (X p t))) products;
  let machine_used := py_sum mterms in
  mc ← machine_capacity !! t;
  mu ← py_div machine_used mc;
  lterms ← mapM (fun p => h ← labor_hours !! p; Some (h * s (X p t))) products;
  let labor_used := py_sum lterms in
  lc ← labor_capacity !! t;
  lu ← py_div labor_used lc;
  Some (machine_used, mu * 100, labor_used, lu * 100).

(** ** A feasible point of the inventory model

    Walking the periods in order, a deficit is covered by shortage and the
    surplus over the safety stock target is excess. *)

Section GreedyPlan.
Variables (periods : list string) (initial_inventory : gmap string Q)
          (effective_demand yielded_supply : gmap (string * string) Q)
          (safety_stock_target : gmap string Q).

Definition qget {K} `{Countable K} (m : gmap K Q) (k : K) : Q := default 0 (m !! k).

Definition period_shortage (i t : string) (prev : Q) : Q :=
  Qmax 0 (qget effective_demand (i, t) - (prev + qget yielded_supply (i, t))).

Definition period_inventory (i t : string) (prev : Q) : Q :=
  prev + qget yielded_supply (i, t) - qget effective_demand (i, t) +
  period_shortage i t prev.

(** The inventory carried into position [k] of [periods]. *)
Fixpoint carried (i : string) (k : nat) : Q :=
  match k with
  | O => qget initial_inventory i
  | S k' => period_inventory i (nth k' periods "") (carried i k')
  end.

Fixpoint index_of (t : string) (l : list string) : option nat :=
  match l with
  | [] => None
  | t' :: l' => if decide (t' = t) then Some O else S <$> index_of t l'
  end.

Definition greedy_plan (v : ivar) : Q :=
  match v with
  | Inventory i t =>
      match index_of t periods with Some k => carried i (S k) | None => 0 end
  | Shortage i t =>
      match index_of t periods with
      | Some k => period_shortage i t (carried i k) | None => 0 end
  | Excess i t =>
      match index_of t periods with
      | Some k => Qmax 0 (carried i (S k) - qget safety_stock_target i)
      | None => 0 end
  end.

End GreedyPlan.

(** ** Checking a candidate solution *)

Definition sat_constraintb {V} (s : V -> Q) (c : constraint V) : bool :=
  match csense c with
  | EQ => Qeq_bool (eval s (clhs c)) (eval s (crhs c))
  | LE => Qle_bool (eval s (clhs c)) (eval s (crhs c))
  | GE => Qle_bool (eval s (crhs c)) (eval s (clhs c))
  end.

Definition sat_vardeclb {V} (s : V -> Q) (d : vardecl V) : bool :=
  match vlow d with Some l => Qle_bool l (s (vvar d)) | None => true end &&
  match vup d with Some u => Qle_bool (s (vvar d)) u | None => true end &&
  match vcat d with
  | Integer => Pos.eqb (Qden (Qred (s (vvar d)))) 1
  | Continuous => true
  end.

Definition feasibleb {V} (p : problem V) (s : V -> Q) : bool :=
  forallb (sat_vardeclb s) (pvars p) && forallb (sat_constraintb s) (pcons p).

(** A production plan for the data of multi-period.py's [main]. *)
Definition mp_plan (v : pvar) : Q :=
  match v with
  | X "A" "January" => 600 | X "A" "February" => 900 | X "A" "March" => 1130
  | X "B" "January" => 680 | X "B" "February" => 700 | X "B" "March" => 910
  | Inv "A" "March" => 130 | Inv "B" "February" => 100 | Inv "B" "March" => 110
  | _ => 0
  end.

(** A production mix for the data of product-mix.py's [main]: 100 tons of
    Super made of material A alone. *)
Definition mix_plan (v : mvar) : Q :=
  match v with
  | Z "A" "Super" => 100 | Y "Super" => 100
  | _ => 0
  end.

(** * Theorems *)

Lemma add_constraints_Some {V} (names : list string) (cs cs' : list (constraint V)) :
  add_constraints names cs = Some cs' -> cs' = cs.
Proof.
  revert names cs'. induction cs as [|c cs IH]; intros names cs' H; cbn in H.
  - injection H as <-. reflexivity.
  - destruct (decide _); [discriminate|].
    destruct (add_constraints _ cs) as [rest|] eqn:E; cbn in H; [|discriminate].
    injection H as <-. rewrite (IH _ _ E). reflexivity.
Qed.

(** Drop the name checks of a formulation known to succeed. *)
Ltac drop_add_constraints :=
  repeat match goal with
  | H : add_constraints _ _ = Some ?v |- _ =>
      apply add_constraints_Some in H; subst v
  end.

(** Open the name check of a formulation known to succeed. *)
Ltac open_add_constraints HP :=
  let Hadd := fresh "Hadd" in
  match type of HP with
  | context [add_constraints ?n ?cs] =>
      destruct (add_constraints n cs) as [?|] eqn:Hadd; cbn in HP; [|discriminate];
      apply add_constraints_Some in Hadd as ->
  end.


Lemma X_problem_eq : X_problem = Some X_P.
Proof. vm_compute. reflexivity. Qed.

Lemma X_P_feasible_iff (s : ivar -> Q) :
  feasible X_P s <->
  0 <= s (Inventory "X" "T1") /\ 0 <= s (Shortage "X" "T1") /\
  0 <= s (Excess "X" "T1") /\
  s (Inventory "X" "T1") == -40 + s (Shortage "X" "T1") /\
  s (Excess "X" "T1") >= s (Inventory "X" "T1") /\
  s (Shortage "X" "T1") >= 40.
Proof.
  unfold feasible, X_P; cbn [pvars pcons].
  rewrite !Forall_cons, !Forall_nil.
  unfold sat_vardecl, sat_constraint; cbn [vvar vlow vup vcat clhs crhs csense eval].
  split.
  - intros [[(?&_&_) [(?&_&_) [(?&_&_) _]]] [? [? [? _]]]]. repeat split; lra.
  - intros (?&?&?&?&?&?). repeat split; lra.
Qed.

(** ** C2 *)
(** Claim C2: on products ["X"], periods ["T1"], initial inventory 0,
    demand 100, supply 60, safety stock 0, shortage cost 5 and excess
    cost 1, the minimum of the objective over the feasible set is 200,
    attained exactly at shortage 40, inventory 0, excess 0; a solver that
    solves the model to optimality makes [lp_model] report [Optimal],
    these three values and total cost 200. *)
Theorem lp_model_single_shortage (solve : solver) :
  solves_optimally solve X_P ->
  X_problem = Some X_P /\
  feasible X_P X_sol /\ eval X_sol (pobj X_P) == 200 /\
  (forall s, feasible X_P s -> 200 <= eval s (pobj X_P)) /\
  (forall s, optimal X_P s ->
     s (Shortage "X" "T1") == 40 /\ s (Inventory "X" "T1") == 0 /\
     s (Excess "X" "T1") == 0) /\
  exists r q_sh q_inv q_ex q_tot,
    Engine.lp_model ["X"] ["T1"] X_init X_dem X_sup X_sst 5 1 solve = Some r /\
    status r = Optimal /\
    shortage r !! ("X", "T1") = Some (Some q_sh) /\ q_sh == 40 /\
    inventory r !! ("X", "T1") = Some (Some q_inv) /\ q_inv == 0 /\
    excess r !! ("X", "T1") = Some (Some q_ex) /\ q_ex == 0 /\
    total_cost r = Some q_tot /\ q_tot == 200.
Proof.
  intros [Hst [s [Hopt Hval]]].
  assert (Hfeas : feasible X_P X_sol) by (apply X_P_feasible_iff; cbn; repeat split; lra).
  assert (Hlow : forall s', feasible X_P s' -> 200 <= eval s' (pobj X_P)).
  { intros s' Hs'. apply X_P_feasible_iff in Hs'. cbn. lra. }
  assert (Huniq : forall s', optimal X_P s' ->
     s' (Shortage "X" "T1") == 40 /\ s' (Inventory "X" "T1") == 0 /\
     s' (Excess "X" "T1") == 0).
  { intros s' [Hs' Hmin]. specialize (Hmin X_sol Hfeas).
    unfold better in Hmin; cbn in Hmin.
    apply X_P_feasible_iff in Hs'. lra. }
  split; [exact X_problem_eq|].
  split; [exact Hfeas|].
  split; [cbn; lra|].
  split; [exact Hlow|].
  split; [exact Huniq|].
  destruct (Huniq s Hopt) as (Hsh & Hinv & Hex).
  unfold Engine.lp_model. fold X_problem. rewrite X_problem_eq. cbn [mbind option_bind].
  destruct (solve X_P) as [st val] eqn:Hsolve. cbn in Hst. subst st.
  cbn in Hval.
  eexists _, (s (Shortage "X" "T1")), (s (Inventory "X" "T1")),
             (s (Excess "X" "T1")), _.
  split; [reflexivity|].
  split; [reflexivity|].
  unfold dict_of_list, Engine.keys, objective_value; cbn.
  rewrite !lookup_insert_eq, !Hval. cbn.
  repeat split; try reflexivity; try assumption.
  lra.
Qed.

(** ** Loops *)

Lemma for_each_is_Some {A B} (f : A -> option (list B)) (l : list A) :
  is_Some (for_each f l) <-> forall x, x ∈ l -> is_Some (f x).
Proof.
  induction l as [|x l IH]; cbn.
  - split; [intros _ y Hy; inversion Hy | eauto].
  - split.
    + intros [cs Hcs].
      destruct (f x) as [r|] eqn:Hf; [|discriminate].
      destruct (for_each f l) as [rest|] eqn:Hl; [|discriminate].
      intros y Hy. apply elem_of_cons in Hy as [->|Hy]; [eauto|].
      apply IH; eauto.
    + intros H.
      destruct (H x) as [r Hf]; [left|]. rewrite Hf. cbn.
      destruct IH as [_ IH]. destruct IH as [rest Hrest].
      { intros y Hy. apply H. right. exact Hy. }
      rewrite Hrest. cbn. eauto.
Qed.

Lemma for_each_elem {A B} (f : A -> option (list B)) (l : list A) cs c :
  for_each f l = Some cs -> c ∈ cs ->
  exists x r, x ∈ l /\ f x = Some r /\ c ∈ r.
Proof.
  revert cs. induction l as [|x l IH]; cbn; intros cs Hcs Hc.
  - injection Hcs as <-. inversion Hc.
  - destruct (f x) as [r|] eqn:Hf; [|discriminate].
    destruct (for_each f l) as [rest|] eqn:Hl; [|discriminate].
    cbn in Hcs. injection Hcs as <-.
    apply elem_of_app in Hc as [Hc|Hc].
    + exists x, r. split; [left|]. auto.
    + destruct (IH rest eq_refl Hc) as (y & r' & Hy & Hfy & Hcy).
      exists y, r'. split; [right; exact Hy|]. auto.
Qed.

Lemma for_each_filter_nil {A B} (f : A -> option (list B)) (P : B -> Prop)
    `{forall b, Decision (P b)} (l : list A) cs :
  for_each f l = Some cs ->
  (forall x r, x ∈ l -> f x = Some r -> filter P r = []) ->
  filter P cs = [].
Proof.
  revert cs. induction l as [|x l IH]; cbn; intros cs Hcs Hall.
  - injection Hcs as <-. reflexivity.
  - destruct (f x) as [r|] eqn:Hf; [|discriminate].
    destruct (for_each f l) as [rest|] eqn:Hl; [|discriminate].
    cbn in Hcs. injection Hcs as <-.
    rewrite filter_app, (Hall x r); [|left|exact Hf].
    apply IH; [reflexivity|]. intros y r' Hy. apply Hall. right. exact Hy.
Qed.

Lemma for_each_filter_unique {A B} `{EqDecision A}
    (f : A -> option (list B)) (P : B -> Prop) `{forall b, Decision (P b)}
    (l : list A) cs x0 y :
  NoDup l -> x0 ∈ l -> for_each f l = Some cs ->
  (forall x r, x ∈ l -> f x = Some r ->
     filter P r = if decide (x = x0) then [y] else []) ->
  filter P cs = [y].
Proof.
  revert cs. induction l as [|x l IH]; cbn; intros cs Hnd Hx0 Hcs Hall.
  - inversion Hx0.
  - apply NoDup_cons in Hnd as [Hnotin Hnd].
    destruct (f x) as [r|] eqn:Hf; [|discriminate].
    destruct (for_each f l) as [rest|] eqn:Hl; [|discriminate].
    cbn in Hcs. injection Hcs as <-.
    rewrite filter_app, (Hall x r); [|left|exact Hf].
    destruct (decide (x = x0)) as [->|Hne].
    + rewrite (for_each_filter_nil f P l rest); [reflexivity|exact Hl|].
      intros z r' Hz Hfz. rewrite (Hall z r'); [|right; exact Hz|exact Hfz].
      destruct (decide (z = x0)) as [->|]; [contradiction|reflexivity].
    + apply elem_of_cons in Hx0 as [Hx0|Hx0]; [congruence|].
      cbn. apply (IH rest Hnd Hx0 eq_refl).
      intros z r' Hz. apply Hall. right. exact Hz.
Qed.

Lemma elem_of_zip_seq {A} (l : list A) n k t :
  (k, t) ∈ zip (seq n (length l)) l <-> (n <= k)%nat /\ l !! (k - n)%nat = Some t.
Proof.
  revert n. induction l as [|a l IH]; intros n; cbn.
  - split; [intros H; inversion H|]. intros [_ H]. discriminate.
  - rewrite elem_of_cons, IH. split.
    + intros [Heq|[Hle Hl]].
      * injection Heq as -> ->. rewrite Nat.sub_diag. split; [lia|reflexivity].
      * split; [lia|]. replace (k - n)%nat with (S (k - S n)) by lia. exact Hl.
    + intros [Hle Hl].
      destruct (decide (k = n)) as [->|Hne].
      * rewrite Nat.sub_diag in Hl. cbn in Hl. injection Hl as ->. left. reflexivity.
      * right. split; [lia|]. replace (k - n)%nat with (S (k - S n)) in Hl by lia.
        exact Hl.
Qed.

Lemma elem_of_enumerate {A} (l : list A) k t :
  (k, t) ∈ enumerate l <-> l !! k = Some t.
Proof.
  unfold enumerate. rewrite elem_of_zip_seq, Nat.sub_0_r. split; [tauto|].
  intros H. split; [lia|exact H].
Qed.

Lemma NoDup_enumerate {A} (l : list A) : NoDup (enumerate l).
Proof.
  unfold enumerate. generalize 0%nat as n.
  induction l as [|a l IH]; intros n; cbn; [constructor|].
  constructor; [|apply IH].
  intros Hin. apply elem_of_zip_seq in Hin. lia.
Qed.

(** ** The rows of [lp_model] *)

Section EngineFacts.
Variables (products periods : list string)
          (initial_inventory : gmap string Q)
          (effective_demand yielded_supply : gmap (string * string) Q)
          (safety_stock_target : gmap string Q)
          (shortage_cost excess_cost : Q).

Local Abbreviation pc := (Engine.period_constraints periods initial_inventory
                        effective_demand yielded_supply safety_stock_target).


Lemma period_constraints_rows i k t r :
  pc i k t = Some r ->
  exists bal exc sh, r = [bal; exc; sh] /\
    balance_key bal = Some (i, t) /\ csense exc = GE /\ csense sh = GE /\
    balance_key exc = None /\ balance_key sh = None /\
    (k = 0%nat -> exists ii ys ed,
       initial_inventory !! i = Some ii /\ yielded_supply !! (i, t) = Some ys /\
       effective_demand !! (i, t) = Some ed /\
       forall s, eval s (crhs bal) == ii + ys - ed + s (Shortage i t)) /\
    (forall k', k = S k' -> exists prev ys ed,
       periods !! k' = Some prev /\ yielded_supply !! (i, t) = Some ys /\
       effective_demand !! (i, t) = Some ed /\
       forall s, eval s (crhs bal) ==
                 s (Inventory i prev) + ys - ed + s (Shortage i t)).
Proof.
  unfold Engine.period_constraints.
  destruct (decide (k = 0%nat)) as [->|Hne].
  - destruct (initial_inventory !! i) as [ii|] eqn:Hii; [|discriminate].
    destruct (yielded_supply !! (i, t)) as [ys|] eqn:Hys; [|discriminate].
    destruct (effective_demand !! (i, t)) as [ed|] eqn:Hed; [|discriminate].
    destruct (safety_stock_target !! i) as [sst|]; [|discriminate].
    cbn. intros Hr. injection Hr as <-.
    eexists _, _, _. split; [reflexivity|].
    do 5 (split; [reflexivity|]). split.
    + intros _. exists ii, ys, ed. do 3 (split; [reflexivity|]).
      intros s. cbn. reflexivity.
    + intros k' Hk'. discriminate.
  - destruct (periods !! (k - 1)%nat) as [prev|] eqn:Hprev; [|discriminate].
    destruct (yielded_supply !! (i, t)) as [ys|] eqn:Hys; [|discriminate].
    destruct (effective_demand !! (i, t)) as [ed|] eqn:Hed; [|discriminate].
    destruct (safety_stock_target !! i) as [sst|]; [|discriminate].
    cbn. intros Hr. injection Hr as <-.
    eexists _, _, _. split; [reflexivity|].
    do 5 (split; [reflexivity|]). split.
    + intros Hk. contradiction.
    + intros k' ->. exists prev, ys, ed.
      replace (S k' - 1)%nat with k' in Hprev by lia.
      do 3 (split; [first [assumption|reflexivity]|]).
      intros s. cbn. reflexivity.
Qed.


Lemma filter_row3 i t b e sh :
  balance_key e = None -> balance_key sh = None ->
  filter (fun c => balance_key c = Some (i, t)) [b; e; sh] =
  if decide (balance_key b = Some (i, t)) then [b] else [].
Proof.
  intros He Hs. rewrite !filter_cons, filter_nil, He, Hs.
  rewrite (decide_False (P := None = Some (i, t))) by discriminate.
  destruct (decide (balance_key b = Some (i, t))); reflexivity.
Qed.

Lemma constraints_balance_row i k t cs :
  NoDup products -> NoDup periods -> i ∈ products -> periods !! k = Some t ->
  Engine.constraints products periods initial_inventory effective_demand
    yielded_supply safety_stock_target = Some cs ->
  exists r bal exc sh, pc i k t = Some r /\ r = [bal; exc; sh] /\
    filter (fun c => balance_key c = Some (i, t)) cs = [bal].
Proof.
  intros Hnp Hnt Hi Hk Hcs.
  assert (Hsome : is_Some (pc i k t)).
  { assert (Hc : is_Some (Engine.constraints products periods initial_inventory
              effective_demand yielded_supply safety_stock_target)) by (rewrite Hcs; eauto).
    unfold Engine.constraints in Hc. rewrite for_each_is_Some in Hc.
    specialize (Hc i Hi). rewrite for_each_is_Some in Hc.
    apply (Hc (k, t)). apply elem_of_enumerate. exact Hk. }
  destruct Hsome as [r Hr].
  destruct (period_constraints_rows i k t r Hr)
    as (bal & exc & sh & -> & Hb & _ & _ & He & Hs & _).
  exists [bal; exc; sh], bal, exc, sh. split; [exact Hr|]. split; [reflexivity|].
  unfold Engine.constraints in Hcs.
  apply (for_each_filter_unique _ _ products cs i bal Hnp Hi Hcs).
  intros x rx Hx Hfx.
  destruct (decide (x = i)) as [->|Hne].
  - apply (for_each_filter_unique (fun '(t_idx, t) => pc i t_idx t) _
             (enumerate periods) rx (k, t) bal
             (NoDup_enumerate periods)); [apply elem_of_enumerate; exact Hk|exact Hfx|].
    intros [k' t'] r' Hkt' Hr'. apply elem_of_enumerate in Hkt'. cbn in Hr'.
    destruct (period_constraints_rows i k' t' r' Hr')
      as (b' & e' & s' & -> & Hb' & _ & _ & He' & Hs' & _).
    rewrite filter_row3 by assumption. rewrite Hb'.
    destruct (decide (t' = t)) as [->|Htne].
    + assert (k' = k) as -> by (eapply NoDup_lookup; eassumption).
      rewrite Hr in Hr'. injection Hr' as <- _ _.
      rewrite !decide_True by reflexivity. reflexivity.
    + rewrite decide_False by congruence. rewrite decide_False by congruence.
      reflexivity.
  - apply (for_each_filter_nil (fun '(t_idx, t) => pc x t_idx t) _
             (enumerate periods) rx Hfx).
    intros [k' t'] r' Hkt' Hr'. cbn in Hr'.
    destruct (period_constraints_rows x k' t' r' Hr')
      as (b' & e' & s' & -> & Hb' & _ & _ & He' & Hs' & _).
    rewrite filter_row3 by assumption. rewrite Hb'.
    rewrite decide_False by congruence. reflexivity.
Qed.

Lemma constraints_equalities c cs :
  Engine.constraints products periods initial_inventory effective_demand
    yielded_supply safety_stock_target = Some cs ->
  c ∈ cs -> csense c = EQ ->
  exists i t, balance_key c = Some (i, t) /\ i ∈ products /\ t ∈ periods.
Proof.
  intros Hcs Hc Heq. unfold Engine.constraints in Hcs.
  destruct (for_each_elem _ _ _ _ Hcs Hc) as (i & ri & Hi & Hri & Hc').
  destruct (for_each_elem _ _ _ _ Hri Hc') as ([k t] & r & Hkt & Hr & Hc'').
  apply elem_of_enumerate in Hkt. cbn in Hr.
  destruct (period_constraints_rows i k t r Hr)
    as (b & e & sh & -> & Hb & He & Hs & _).
  exists i, t. split; [|split; [exact Hi|eapply list_elem_of_lookup_2; exact Hkt]].
  apply elem_of_cons in Hc'' as [->|Hc'']; [exact Hb|].
  apply elem_of_cons in Hc'' as [->|Hc'']; [congruence|].
  apply elem_of_cons in Hc'' as [->|Hc'']; [congruence|].
  inversion Hc''.
Qed.

End EngineFacts.

(** ** C1 *)
(** Claim C1: whenever the formulation of [lp_model] succeeds (every
    lookup defined and no two row names equal) for distinct products and
    distinct periods, it has, for every product [i] and every period [t]
    at position [k] of [periods], exactly one balance equality with
    left-hand side [inventory[i,t]] (and every equality of the model is
    such a balance row). Its right-hand side is
    [initial_inventory[i] + yielded_supply[i,t] - effective_demand[i,t]
    + shortage[i,t]] for the first period and
    [inventory[i,t-1] + yielded_supply[i,t] - effective_demand[i,t]
    + shortage[i,t]] for a later one, [t-1] being the previous entry of
    [periods]. *)
Theorem lp_model_balance_rows (products periods : list string)
    (initial_inventory : gmap string Q)
    (effective_demand yielded_supply : gmap (string * string) Q)
    (safety_stock_target : gmap string Q) (shortage_cost excess_cost : Q)
    (P : problem ivar) :
  NoDup products -> NoDup periods ->
  Engine.lp_model_problem products periods initial_inventory effective_demand
    yielded_supply safety_stock_target shortage_cost excess_cost = Some P ->
  (forall c, c ∈ pcons P -> csense c = EQ ->
     exists i t, balance_key c = Some (i, t) /\ i ∈ products /\ t ∈ periods) /\
  forall i k t, i ∈ products -> periods !! k = Some t ->
    exists bal,
      filter (fun c => balance_key c = Some (i, t)) (pcons P) = [bal] /\
      csense bal = EQ /\ clhs bal = Var (Inventory i t) /\
      (k = 0%nat -> forall ii ys ed,
         initial_inventory !! i = Some ii -> yielded_supply !! (i, t) = Some ys ->
         effective_demand !! (i, t) = Some ed ->
         forall s, eval s (crhs bal) == ii + ys - ed + s (Shortage i t)) /\
      (forall k' prev ys ed, k = S k' -> periods !! k' = Some prev ->
         yielded_supply !! (i, t) = Some ys ->
         effective_demand !! (i, t) = Some ed ->
         forall s, eval s (crhs bal) ==
                   s (Inventory i prev) + ys - ed + s (Shortage i t)).
Proof.
  intros Hnp Hnt HP. unfold Engine.lp_model_problem in HP.
  destruct (Engine.constraints products periods initial_inventory effective_demand
              yielded_supply safety_stock_target) as [cs|] eqn:Hcs;
    cbn in HP; [|discriminate].
  destruct (add_constraints [] cs) as [cs'|] eqn:Hadd; cbn in HP; [|discriminate].
  apply add_constraints_Some in Hadd as ->. injection HP as <-.
  cbn [pcons]. split.
  { intros c Hc Heq. eapply constraints_equalities; eassumption. }
  intros i k t Hi Hk.
  destruct (constraints_balance_row products periods initial_inventory
              effective_demand yielded_supply safety_stock_target i k t cs
              Hnp Hnt Hi Hk Hcs) as (r & bal & exc & sh & Hr & -> & Hfilter).
  exists bal. split; [exact Hfilter|].
  destruct (period_constraints_rows periods initial_inventory effective_demand
              yielded_supply safety_stock_target i k t _ Hr)
    as (b & e & s' & Heq & Hb & _ & _ & _ & _ & Hfirst & Hnext).
  injection Heq as <- _ _.
  unfold balance_key in Hb.
  destruct (csense bal), (clhs bal) as [| [] | | |]; try discriminate.
  injection Hb as -> ->.
  split; [reflexivity|]. split; [reflexivity|]. split.
  - intros Hk0 ii ys ed Hii Hys Hed s.
    destruct (Hfirst Hk0) as (ii' & ys' & ed' & Hii' & Hys' & Hed' & Heval).
    rewrite Hii in Hii'; rewrite Hys in Hys'; rewrite Hed in Hed'.
    injection Hii' as <-; injection Hys' as <-; injection Hed' as <-.
    apply Heval.
  - intros k' prev ys ed Hk' Hprev Hys Hed s.
    destruct (Hnext k' Hk') as (prev' & ys' & ed' & Hprev' & Hys' & Hed' & Heval).
    rewrite Hprev in Hprev'; rewrite Hys in Hys'; rewrite Hed in Hed'.
    injection Hprev' as <-; injection Hys' as <-; injection Hed' as <-.
    apply Heval.
Qed.

Lemma lp_model_balance_rows_witness :
  NoDup ["X"; "Y"] /\ NoDup ["T1"; "T2"] /\
  exists P,
    Engine.lp_model_problem ["X"; "Y"] ["T1"; "T2"]
      {[ "X" := 0; "Y" := 5 ]}
      {[ ("X", "T1") := 100; ("X", "T2") := 10; ("Y", "T1") := 7; ("Y", "T2") := 1 ]}
      {[ ("X", "T1") := 60; ("X", "T2") := 20; ("Y", "T1") := 3; ("Y", "T2") := 2 ]}
      {[ "X" := 0; "Y" := 1 ]} 5 1 = Some P /\
    exists bal,
      filter (fun c => balance_key c = Some ("Y", "T2")) (pcons P) = [bal] /\
      clhs bal = Var (Inventory "Y" "T2").
Proof.
  assert (Hnp : NoDup ["X"; "Y"]) by (repeat constructor; intros H; repeat (apply elem_of_cons in H as [H|H]); try discriminate H; inversion H).
  assert (Hnt : NoDup ["T1"; "T2"]) by (repeat constructor; intros H; repeat (apply elem_of_cons in H as [H|H]); try discriminate H; inversion H).
  split; [exact Hnp|]. split; [exact Hnt|].
  eexists. split; [vm_compute; reflexivity|].
  match goal with
  | |- exists bal, filter _ (pcons ?P) = _ /\ _ =>
      assert (HP : Engine.lp_model_problem ["X"; "Y"] ["T1"; "T2"]
        {[ "X" := 0; "Y" := 5 ]}
        {[ ("X", "T1") := 100; ("X", "T2") := 10; ("Y", "T1") := 7; ("Y", "T2") := 1 ]}
        {[ ("X", "T1") := 60; ("X", "T2") := 20; ("Y", "T1") := 3; ("Y", "T2") := 2 ]}
        {[ "X" := 0; "Y" := 1 ]} 5 1 = Some P) by (vm_compute; reflexivity);
      destruct (proj2 (lp_model_balance_rows _ _ _ _ _ _ 5 1 P Hnp Hnt HP)
                  "Y" 1%nat "T2" ltac:(right; left) eq_refl) as (bal & Hf & _ & Hl & _);
      exists bal; split; [exact Hf|exact Hl]
  end.
Defined.








(** C2 witness: the solver returning the expected assignment. *)
Lemma X_sol_optimal : optimal X_P X_sol.
Proof.
  split.
  - apply X_P_feasible_iff. cbn. repeat split; lra.
  - intros s' Hs'. apply X_P_feasible_iff in Hs'. unfold better. cbn. lra.
Qed.

Lemma lp_model_single_shortage_witness :
  solves_optimally (fun _ => (Optimal, fun v => Some (X_sol v))) X_P /\
  X_problem = Some X_P.
Proof.
  assert (H : solves_optimally (fun _ => (Optimal, fun v => Some (X_sol v))) X_P).
  { split; [reflexivity|]. exists X_sol. split; [exact X_sol_optimal|reflexivity]. }
  split; [exact H|].
  exact (proj1 (lp_model_single_shortage _ H)).
Defined.

(** ** C9 *)
(** Claim C9: the [lp_model] of src/examples/engine.py and the [lp_model]
    of src/plugins/mcp/server.py build the same problem and, with the same
    solver, return the same result, on every input. *)
Theorem lp_model_engine_server_equal (products periods : list string)
    (initial_inventory : gmap string Q)
    (effective_demand yielded_supply : gmap (string * string) Q)
    (safety_stock_target : gmap string Q) (shortage_cost excess_cost : Q)
    (solve : solver) :
  Engine.lp_model_problem products periods initial_inventory effective_demand
    yielded_supply safety_stock_target shortage_cost excess_cost =
  Server.lp_model_problem products periods initial_inventory effective_demand
    yielded_supply safety_stock_target shortage_cost excess_cost /\
  Engine.lp_model products periods initial_inventory effective_demand
    yielded_supply safety_stock_target shortage_cost excess_cost solve =
  Server.lp_model products periods initial_inventory effective_demand
    yielded_supply safety_stock_target shortage_cost excess_cost solve.
Proof. split; reflexivity. Qed.

(** ** Cost aggregation *)

Lemma foldl_Qplus_proper (a b : Q) (l1 l2 : list Q) :
  a == b -> Forall2 Qeq l1 l2 -> foldl Qplus a l1 == foldl Qplus b l2.
Proof.
  intros Hab Hl. revert a b Hab.
  induction Hl as [|x y l1 l2 Hxy Hl IH]; intros a b Hab; cbn; [exact Hab|].
  apply IH. rewrite Hab, Hxy. reflexivity.
Qed.

Lemma py_or_zero (x : option Q) :
  py_or x 0 == match x with Some q => q | None => 0 end.
Proof.
  destruct x as [q|]; cbn; [|reflexivity].
  destruct (Qeq_bool q 0) eqn:Hq; [|reflexivity].
  apply Qeq_bool_eq in Hq. rewrite Hq. reflexivity.
Qed.

(** ** C8 *)
(** Claim C8: the downstream aggregation
    [sum(cost * (d.get((i, t), 0) or 0) ...)] (total shortage cost and
    total excess cost, in engine.py and in server.py) counts an absent key
    or a [None] value as zero: each summand is then zero, and the sum is
    the sum over all pairs of [cost] times the value held, zero when
    absent or [None]. It is a total function: no error is raised. *)
Theorem cost_aggregation_missing_is_zero (products periods : list string)
    (cost : Q) (d : gmap (string * string) (option Q)) :
  (forall i t, d !! (i, t) = None \/ d !! (i, t) = Some None ->
     py_or (dict_get d (i, t) (Some 0)) 0 = 0) /\
  aggregate_cost products periods cost d ==
  foldl Qplus 0 (map (fun '(i, t) => cost * result_or_zero (d !! (i, t)))
                     (list_prod products periods)).
Proof.
  split.
  - intros i t [H|H]; unfold dict_get; rewrite H; reflexivity.
  - unfold aggregate_cost. apply foldl_Qplus_proper; [reflexivity|].
    apply Forall2_fmap, Forall_Forall2_diag, Forall_forall.
    intros [i t] _. cbn.
    rewrite py_or_zero. unfold dict_get, result_or_zero.
    destruct (d !! (i, t)) as [[q|]|]; reflexivity.
Qed.

(** ** Key splitting *)

Lemma string_app_cons (c : ascii) (a b : string) :
  String c a +:+ b = String c (a +:+ b).
Proof. reflexivity. Qed.

Lemma string_app_nil (b : string) : "" +:+ b = b.
Proof. reflexivity. Qed.

Lemma string_app_assoc (a b c : string) : (a +:+ b) +:+ c = a +:+ (b +:+ c).
Proof.
  induction a as [|x a IH]; [reflexivity|]. rewrite !string_app_cons, IH.
  reflexivity.
Qed.

Lemma split_once_none (s : string) :
  count_underscores s = 0%nat -> split_once s = None.
Proof.
  induction s as [|c s IH]; cbn; [reflexivity|].
  destruct (is_underscore c); cbn; [discriminate|]. intros H. rewrite IH by exact H.
  reflexivity.
Qed.

Lemma split_once_app (a r : string) :
  count_underscores a = 0%nat -> split_once (a +:+ String "_" r) = Some (a, r).
Proof.
  induction a as [|c a IH]; [reflexivity|]. rewrite string_app_cons. cbn.
  destruct (is_underscore c); cbn; [discriminate|]. intros H. rewrite IH by exact H.
  reflexivity.
Qed.

Lemma py_in_underscore_app (a r : string) :
  py_in_underscore (a +:+ String "_" r) = true.
Proof.
  induction a as [|c a IH]; [reflexivity|]. rewrite string_app_cons. cbn.
  rewrite IH. apply orb_true_r.
Qed.

Lemma py_in_underscore_count (s : string) :
  py_in_underscore s = false -> count_underscores s = 0%nat.
Proof.
  induction s as [|c s IH]; cbn; [reflexivity|].
  destruct (is_underscore c); cbn; [discriminate|]. exact IH.
Qed.

Lemma count_underscores_one (p : string) :
  count_underscores p = 1%nat ->
  exists a b, p = a +:+ String "_" b /\
              count_underscores a = 0%nat /\ count_underscores b = 0%nat.
Proof.
  induction p as [|c p IH]; cbn; [discriminate|].
  destruct (is_underscore c) eqn:Hc; cbn.
  - intros H. injection H as H. exists EmptyString, p.
    unfold is_underscore in Hc. apply Ascii.eqb_eq in Hc. subst c.
    split; [reflexivity|]. split; [reflexivity|exact H].
  - intros H. destruct (IH H) as (a & b & -> & Ha & Hb).
    exists (String c a), b. split; [reflexivity|]. cbn. rewrite Hc. auto.
Qed.

(** A key [p ++ "_" ++ t] whose product [p] has exactly one underscore is
    split back into [(p, t)], whatever [t] holds. *)
Lemma split_key_flat (p t : string) :
  count_underscores p = 1%nat -> split_key (p +:+ "_" +:+ t) = Some (p, t).
Proof.
  intros Hp. destruct (count_underscores_one p Hp) as (a & b & -> & Ha & Hb).
  unfold split_key, py_split1.
  rewrite string_app_assoc, !string_app_cons, string_app_nil.
  rewrite split_once_app by exact Ha. cbv beta iota.
  unfold py_split_head. rewrite split_once_app by exact Hb.
  rewrite py_in_underscore_app, string_app_cons, string_app_nil.
  reflexivity.
Qed.

Lemma split_key_no_underscore (key : string) :
  py_in_underscore key = false -> split_key key = None.
Proof.
  intros H. unfold split_key, py_split1.
  rewrite split_once_none by (apply py_in_underscore_count; exact H).
  reflexivity.
Qed.

Lemma foldl_insert_union (l : list ((string * string) * Q))
    (m : gmap (string * string) Q) :
  NoDup l.*1 ->
  foldl (fun acc kv => <[kv.1 := kv.2]> acc) m l = list_to_map l ∪ m.
Proof.
  revert m. induction l as [|[k v] l IH]; intros m Hnd; cbn [foldl].
  - rewrite list_to_map_nil, map_empty_union. reflexivity.
  - cbn [fmap list_fmap fst] in Hnd. apply NoDup_cons in Hnd as [Hk Hnd].
    rewrite IH by exact Hnd. cbn [fst snd].
    rewrite <- insert_union_r by (apply not_elem_of_list_to_map_1; exact Hk).
    rewrite list_to_map_cons, insert_union_l. reflexivity.
Qed.

(** ** C5 *)
(** Claim C5: flattening a [(product, period) -> value] mapping into
    ["product_period"] keys and unflattening it with the loop of
    [optimize_inventory] gives the mapping back, when every product name
    has a single underscore (as the docstring's ["Widget_A"]); period
    names may hold any number of underscores, so in particular the
    single-underscore product and period names of the claim. *)
Theorem key_round_trip (m : gmap (string * string) Q) :
  (forall p t v, m !! (p, t) = Some v -> count_underscores p = 1%nat) ->
  to_tuples (flatten m) = m.
Proof.
  intros Hm.
  assert (Hstep : forall l : list ((string * string) * Q),
    (forall kv, kv ∈ l -> m !! kv.1 = Some kv.2) ->
    forall acc : gmap (string * string) Q,
    foldl (fun acc '(key, value) =>
             match split_key key with
             | Some pt => <[pt := value]> acc
             | None => acc
             end) acc (map (fun '((p, t), v) => (p +:+ "_" +:+ t, v)) l) =
    foldl (fun acc kv => <[kv.1 := kv.2]> acc) acc l).
  { induction l as [|[[p t] v] l IH]; intros Hl acc; cbn; [reflexivity|].
    rewrite split_key_flat.
    - apply IH. intros kv Hkv. apply Hl. right. exact Hkv.
    - apply (Hm p t v). apply (Hl ((p, t), v)). left. }
  unfold to_tuples, flatten. rewrite Hstep.
  - rewrite foldl_insert_union by apply NoDup_fst_map_to_list.
    rewrite map_union_empty. apply list_to_map_to_list.
  - intros [k v] Hkv. apply elem_of_map_to_list. exact Hkv.
Qed.

Lemma key_round_trip_witness :
  (forall p t v,
     ({[ ("Widget_A", "January") := 250; ("Widget_B", "Q1_2024") := 200 ]}
        : gmap (string * string) Q) !! (p, t) = Some v ->
     count_underscores p = 1%nat) /\
  to_tuples (flatten {[ ("Widget_A", "January") := 250;
                        ("Widget_B", "Q1_2024") := 200 ]}) =
  {[ ("Widget_A", "January") := 250; ("Widget_B", "Q1_2024") := 200 ]}.
Proof.
  assert (H : forall p t v,
     ({[ ("Widget_A", "January") := 250; ("Widget_B", "Q1_2024") := 200 ]}
        : gmap (string * string) Q) !! (p, t) = Some v ->
     count_underscores p = 1%nat).
  { intros p t v Hv.
    apply lookup_insert_Some in Hv as [[Heq _]|[_ Hv]].
    - injection Heq as <- _. reflexivity.
    - apply lookup_singleton_Some in Hv as [Heq _].
      injection Heq as <- _. reflexivity. }
  split; [exact H|]. exact (key_round_trip _ H).
Defined.

(** ** C7 *)
(** Claim C7: an item of the flattened dictionary whose key holds no
    underscore is skipped by the loop: removing it leaves the unflattened
    mapping unchanged, and the loop is total (no error). *)
Theorem to_tuples_skips_plain_keys (l1 l2 : list (string * Q)) (key : string) (v : Q) :
  py_in_underscore key = false ->
  to_tuples (l1 ++ (key, v) :: l2) = to_tuples (l1 ++ l2).
Proof.
  intros H. unfold to_tuples. rewrite !foldl_app. cbn.
  rewrite split_key_no_underscore by exact H. reflexivity.
Qed.

Lemma to_tuples_skips_plain_keys_witness :
  py_in_underscore "WidgetJanuary" = false /\
  to_tuples ([("Widget_A_January", 250)] ++ ("WidgetJanuary", 7) :: []) =
  to_tuples ([("Widget_A_January", 250)] ++ []).
Proof.
  split; [reflexivity|]. apply to_tuples_skips_plain_keys. reflexivity.
Defined.

(** ** C6 *)
(** Claim C6, counterexample: with products ["A"] and periods ["Jan"], the
    key ["A_Jan"] has the list-confirmed split [("A", "Jan")], yet the loop
    stores it under [("A_Jan", "Jan")], and [lp_model] then misses the
    demand of [("A", "Jan")]. *)
Lemma optimize_inventory_ignores_lists :
  "A" ∈ ["A"%string] /\ "Jan" ∈ ["Jan"%string] /\
  ("A" +:+ "_" +:+ "Jan")%string = "A_Jan"%string /\
  to_tuples [("A_Jan", 5)] = {[ ("A_Jan", "Jan") := 5 ]} /\
  to_tuples [("A_Jan", 5)] !! ("A", "Jan") = None /\
  optimize_inventory no_solver ["A"] ["Jan"] {[ "A" := 0 ]}
    [("A_Jan", 5)] [("A_Jan", 5)] {[ "A" := 0 ]} 1 1 = None.
Proof.
  split; [left|]. split; [left|].
  split; [reflexivity|]. split; [reflexivity|].
  split; vm_compute; reflexivity.
Qed.

(** Claim C6 (as the code has it): [optimize_inventory] hands [lp_model]
    the tuples built from the flattened items alone, never consulting
    [products] or [periods]; a key [p ++ "_" ++ t] with [p] and [t] free
    of underscores lands at [(p ++ "_" ++ t, t)], whether or not [p] is a
    listed product and [t] a listed period. *)
Theorem optimize_inventory_heuristic_only (solve : solver)
    (products periods : list string) (initial_inventory : gmap string Q)
    (effective_demand yielded_supply : list (string * Q))
    (safety_stock_target : gmap string Q) (shortage_cost excess_cost : Q) :
  optimize_inventory solve products periods initial_inventory effective_demand
    yielded_supply safety_stock_target shortage_cost excess_cost =
  Server.lp_model products periods initial_inventory
    (to_tuples effective_demand) (to_tuples yielded_supply)
    safety_stock_target shortage_cost excess_cost solve /\
  (forall p t, count_underscores p = 0%nat -> count_underscores t = 0%nat ->
     split_key (p +:+ "_" +:+ t) = Some (p +:+ "_" +:+ t, t)).
Proof.
  split; [reflexivity|].
  intros p t Hp Ht. unfold split_key, py_split1.
  rewrite string_app_cons, string_app_nil, split_once_app by exact Hp.
  cbv beta iota. unfold py_split_head. rewrite (split_once_none t Ht).
  destruct (py_in_underscore t) eqn:Hin.
  - exfalso. revert Hin Ht. clear. induction t as [|c t IH]; cbn; [discriminate|].
    destruct (is_underscore c); cbn; [discriminate|]. exact IH.
  - reflexivity.
Qed.

(** ** The production mix *)

Lemma eval_lpSum {V} (s : V -> Q) (es : list (expr V)) :
  eval s (lpSum es) = fold_right Qplus 0 (map (eval s) es).
Proof. induction es as [|e es IH]; cbn; [reflexivity|]. rewrite <- IH. reflexivity. Qed.

(** ** C3 *)
(** Claim C3: for every product [j] the production-mix model has the
    equality [lpSum(z[i, j] for i in raw_materials) == y[j]], so every
    feasible (in particular every optimal) assignment allocates to [j] raw
    material summing exactly to the output of [j]. *)
Theorem mix_mass_balance (raw_materials products : list string)
    (octane_number material_cost max_available : gmap string Q)
    (octane_requirement selling_price demand : gmap string Q) (P : problem mvar) :
  mix_model raw_materials products octane_number material_cost max_available
    octane_requirement selling_price demand = Some P ->
  forall j, j ∈ products ->
    (exists c, c ∈ pcons P /\ csense c = EQ /\
       clhs c = lpSum (map (fun i => Var (Z i j)) raw_materials) /\
       crhs c = Var (Y j)) /\
    (forall s, feasible P s ->
       fold_right Qplus 0 (map (fun i => s (Z i j)) raw_materials) == s (Y j)).
Proof.
  intros HP j Hj.
  unfold mix_model in HP. simplify_option_eq; drop_add_constraints.
  set (c := mkConstraint ("Mass_Balance_" +:+ j)
              (lpSum (map (fun i => Var (Z i j)) raw_materials)) EQ (Var (Y j))).
  cbn [pcons csense clhs crhs].
  assert (Hc : forall l1 l2 : list (constraint mvar),
             c ∈ l1 ++ map (fun j => mkConstraint ("Mass_Balance_" +:+ j)
                   (lpSum (map (fun i => Var (Z i j)) raw_materials)) EQ (Var (Y j)))
                   products ++ l2).
  { intros l1 l2. apply elem_of_app. right. apply elem_of_app. left.
    apply list_elem_of_fmap. exists j. split; [reflexivity|exact Hj]. }
  split.
  - exists c. split; [apply Hc|]. auto.
  - intros s [_ Hcons]. cbn [pcons] in Hcons. rewrite Forall_forall in Hcons.
    specialize (Hcons c (Hc _ _)). unfold sat_constraint in Hcons. cbn in Hcons.
    rewrite eval_lpSum, map_map in Hcons. exact Hcons.
Qed.

Lemma mix_mass_balance_witness :
  exists P, mix_main = Some P /\ "Super"%string ∈ ["Super"; "Unleaded"; "Super_Unleaded"] /\
    forall s, feasible P s ->
      fold_right Qplus 0 (map (fun i => s (Z i "Super")) ["A"; "B"; "C"]) ==
      s (Y "Super").
Proof.
  assert (H : is_Some mix_main) by (vm_compute; eauto).
  destruct H as [P HP]. exists P. split; [exact HP|]. split; [left|].
  unfold mix_main in HP.
  exact (proj2 (mix_mass_balance _ _ _ _ _ _ _ _ P HP "Super" ltac:(left))).
Defined.

(** ** C4 *)
(** Claim C4: in the multi-period production plan every production
    variable [x[p, t]] and every inventory variable [inv[p, t]] is declared
    with lower bound 0 and category [Integer], every declared variable is
    such, and with at least one product and one period the problem is a
    mixed-integer problem. *)
Theorem multi_period_integer_vars (products periods : list string)
    (initial_inventory safety_stock production_cost : gmap string Q)
    (holding_cost_rate : Q) (demand : gmap (string * string) Q)
    (machine_capacity labor_capacity machine_hours labor_hours : gmap string Q)
    (P : problem pvar) :
  multi_period_model products periods initial_inventory safety_stock
    production_cost holding_cost_rate demand machine_capacity labor_capacity
    machine_hours labor_hours = Some P ->
  (forall p t, p ∈ products -> t ∈ periods ->
     mkVar (X p t) (Some 0) None Integer ∈ pvars P /\
     mkVar (Inv p t) (Some 0) None Integer ∈ pvars P) /\
  (forall d, d ∈ pvars P -> vlow d = Some 0 /\ vcat d = Integer) /\
  (products <> [] -> periods <> [] -> isMIP P = true).
Proof.
  intros HP. unfold multi_period_model in HP. simplify_option_eq; drop_add_constraints.
  cbn [pvars].
  assert (Hkeys : forall p t, p ∈ products -> t ∈ periods ->
            (p, t) ∈ list_prod products periods).
  { intros p t Hp Ht. apply list_elem_of_In, in_prod; apply list_elem_of_In; assumption. }
  split; [|split].
  - intros p t Hp Ht. split.
    + apply elem_of_app. left. apply list_elem_of_fmap.
      exists (p, t). split; [reflexivity|auto].
    + apply elem_of_app. right. apply list_elem_of_fmap.
      exists (p, t). split; [reflexivity|auto].
  - intros d Hd. apply elem_of_app in Hd as [Hd|Hd];
      apply list_elem_of_fmap in Hd as [[p t] [-> _]]; auto.
  - intros Hp Ht. destruct products as [|p ps]; [contradiction|].
    destruct periods as [|t ts]; [contradiction|].
    reflexivity.
Qed.

Lemma multi_period_integer_vars_witness :
  exists P, multi_period_main = Some P /\ isMIP P = true.
Proof.
  assert (H : is_Some multi_period_main) by (vm_compute; eauto).
  destruct H as [P HP]. exists P. split; [exact HP|].
  unfold multi_period_main in HP.
  apply (multi_period_integer_vars _ _ _ _ _ _ _ _ _ _ _ P HP); discriminate.
Defined.

(** ** Extra facts: solution checking, sums, dictionaries *)

Lemma feasibleb_spec {V} (p : problem V) (s : V -> Q) :
  feasibleb p s = true -> feasible p s.
Proof.
  unfold feasibleb. rewrite andb_true_iff, !forallb_forall.
  intros [Hv Hc]. split; apply Forall_forall.
  - intros d Hd. apply list_elem_of_In in Hd. specialize (Hv d Hd).
    unfold sat_vardeclb in Hv. rewrite !andb_true_iff in Hv.
    destruct Hv as [[Hl Hu] Hcat]. unfold sat_vardecl.
    split; [|split].
    + destruct (vlow d); [apply Qle_bool_iff; exact Hl|exact I].
    + destruct (vup d); [apply Qle_bool_iff; exact Hu|exact I].
    + destruct (vcat d); [exact I|]. unfold is_integral. apply Pos.eqb_eq. exact Hcat.
  - intros c Hcin. apply list_elem_of_In in Hcin. specialize (Hc c Hcin).
    unfold sat_constraintb in Hc. unfold sat_constraint.
    destruct (csense c).
    + apply Qeq_bool_eq. exact Hc.
    + apply Qle_bool_iff. exact Hc.
    + apply Qle_bool_iff. exact Hc.
Qed.

Lemma foldl_Qplus_fold_right (a : Q) (l : list Q) :
  foldl Qplus a l == a + fold_right Qplus 0 l.
Proof.
  revert a. induction l as [|x l IH]; intros a; cbn; [ring|].
  rewrite IH. ring.
Qed.

Lemma fold_right_Qplus_nonneg {A} (f : A -> Q) (l : list A) :
  (forall x, x ∈ l -> 0 <= f x) -> 0 <= fold_right Qplus 0 (map f l).
Proof.
  induction l as [|x l IH]; intros H; cbn; [lra|].
  assert (0 <= f x) by (apply H; left).
  assert (0 <= fold_right Qplus 0 (map f l)) by (apply IH; intros y Hy; apply H; right; exact Hy).
  lra.
Qed.

Lemma fold_right_Qplus_ext {A} (f g : A -> Q) (l : list A) :
  (forall x, x ∈ l -> f x == g x) ->
  fold_right Qplus 0 (map f l) == fold_right Qplus 0 (map g l).
Proof.
  induction l as [|x l IH]; intros H; cbn; [reflexivity|].
  rewrite (H x) by left. rewrite IH by (intros y Hy; apply H; right; exact Hy).
  reflexivity.
Qed.

Lemma fold_right_Qplus_add {A} (f g : A -> Q) (l : list A) :
  fold_right Qplus 0 (map (fun x => f x + g x) l) ==
  fold_right Qplus 0 (map f l) + fold_right Qplus 0 (map g l).
Proof. induction l as [|x l IH]; cbn; [ring|]. rewrite IH. ring. Qed.

Lemma fold_right_Qplus_scale {A} (c : Q) (f : A -> Q) (l : list A) :
  fold_right Qplus 0 (map (fun x => c * f x) l) == c * fold_right Qplus 0 (map f l).
Proof. induction l as [|x l IH]; cbn; [ring|]. rewrite IH. ring. Qed.

Lemma fold_right_Qplus_le {A} (f g : A -> Q) (l : list A) :
  (forall x, x ∈ l -> f x <= g x) ->
  fold_right Qplus 0 (map f l) <= fold_right Qplus 0 (map g l).
Proof.
  induction l as [|x l IH]; intros H; cbn; [lra|].
  assert (f x <= g x) by (apply H; left).
  assert (fold_right Qplus 0 (map f l) <= fold_right Qplus 0 (map g l))
    by (apply IH; intros y Hy; apply H; right; exact Hy).
  lra.
Qed.

(** One summand of a sum of non-negative summands is at most the sum. *)
Lemma fold_right_Qplus_member {A} (f : A -> Q) (l : list A) (x : A) :
  x ∈ l -> (forall y, y ∈ l -> 0 <= f y) -> f x <= fold_right Qplus 0 (map f l).
Proof.
  induction l as [|y l IH]; intros Hx H; cbn; [inversion Hx|].
  assert (0 <= f y) by (apply H; left).
  assert (0 <= fold_right Qplus 0 (map f l))
    by (apply fold_right_Qplus_nonneg; intros z Hz; apply H; right; exact Hz).
  apply elem_of_cons in Hx as [->|Hx]; [lra|].
  assert (f x <= fold_right Qplus 0 (map f l))
    by (apply IH; [exact Hx|intros z Hz; apply H; right; exact Hz]).
  lra.
Qed.

Lemma value_lpSum_Some {V} (val : V -> option Q) (f : expr V -> Q) (es : list (expr V)) :
  (forall e, e ∈ es -> value val e = Some (f e)) ->
  value val (lpSum es) = Some (fold_right Qplus 0 (map f es)).
Proof.
  induction es as [|e es IH]; intros H; cbn; [reflexivity|].
  rewrite (H e) by left. cbn.
  unfold lpSum in IH. rewrite IH by (intros e' He'; apply H; right; exact He').
  reflexivity.
Qed.

Lemma value_lpSum_None {V} (val : V -> option Q) (es : list (expr V)) :
  value val (lpSum es) = None <-> exists e, e ∈ es /\ value val e = None.
Proof.
  induction es as [|e es IH]; cbn.
  - split; [discriminate|]. intros (e & He & _). inversion He.
  - unfold lpSum in IH. split.
    + destruct (value val e) as [q1|] eqn:He; cbn.
      * destruct (value val (fold_right Add (Const 0) es)) as [q2|]; cbn; [discriminate|].
        intros _. destruct (proj1 IH eq_refl) as (e' & He' & Hn).
        exists e'. split; [right; exact He'|exact Hn].
      * intros _. exists e. split; [left|exact He].
    + intros (e' & He' & Hn). apply elem_of_cons in He' as [->|He'].
      * rewrite Hn. reflexivity.
      * destruct (value val e); cbn; [|reflexivity].
        rewrite (proj2 IH (ex_intro _ e' (conj He' Hn))). reflexivity.
Qed.

(** A dict built by assignments that all store [f k] under [k]. *)
Lemma dict_of_list_lookup_fun {K W} `{Countable K} (f : K -> W)
    (l : list (K * W)) (k : K) :
  (forall kv, kv ∈ l -> kv.2 = f kv.1) ->
  dict_of_list l !! k = if decide (k ∈ l.*1) then Some (f k) else None.
Proof.
  intros Hl. unfold dict_of_list.
  assert (Hgen : forall m : gmap K W,
    foldl (fun m kv => <[kv.1 := kv.2]> m) m l !! k =
    if decide (k ∈ l.*1) then Some (f k) else m !! k).
  { induction l as [|[k' w] l IH]; intros m; cbn [foldl fmap list_fmap fst snd].
    - rewrite decide_False by (intros Hn; inversion Hn). reflexivity.
    - rewrite IH by (intros kv Hkv; apply Hl; right; exact Hkv).
      destruct (decide (k ∈ l.*1)) as [Hin|Hnin].
      + rewrite decide_True by (right; exact Hin). reflexivity.
      + destruct (decide (k = k')) as [->|Hne].
        * rewrite decide_True by left. rewrite lookup_insert_eq.
          specialize (Hl (k', w) ltac:(left)). cbn in Hl. rewrite Hl. reflexivity.
        * rewrite decide_False.
          -- rewrite lookup_insert_ne by congruence. reflexivity.
          -- intros Hc. apply elem_of_cons in Hc as [Hc|Hc]; contradiction. }
  rewrite Hgen, lookup_empty. reflexivity.
Qed.

Lemma mapM_lookup_map {A B} (m : gmap string Q) (g : Q -> A -> B)
    (l : list A) (f : A -> string) (ts : list B) :
  mapM (fun a => h ← m !! f a; Some (g h a)) l = Some ts ->
  (forall a, a ∈ l -> is_Some (m !! f a)) /\
  ts = map (fun a => g (qget m (f a)) a) l.
Proof.
  revert ts. induction l as [|a l IH]; intros ts Hts; cbn in Hts.
  - injection Hts as <-. split; [intros a Ha; inversion Ha|reflexivity].
  - destruct (m !! f a) as [h|] eqn:Hh; cbn in Hts; [|discriminate].
    destruct (mapM _ l) as [ts'|] eqn:Hl; cbn in Hts; [|discriminate].
    injection Hts as <-. destruct (IH ts' eq_refl) as [Hs ->].
    split.
    + intros b Hb. apply elem_of_cons in Hb as [->|Hb]; [rewrite Hh; eauto|auto].
    + cbn. unfold qget. rewrite Hh. reflexivity.
Qed.

Lemma Qmax_ge_l (a b : Q) : a <= Qmax a b.
Proof. apply Q.le_max_l. Qed.

Lemma Qmax_ge_r (a b : Q) : b <= Qmax a b.
Proof. apply Q.le_max_r. Qed.

Lemma index_of_lookup (l : list string) (k : nat) (t : string) :
  NoDup l -> l !! k = Some t -> index_of t l = Some k.
Proof.
  revert k. induction l as [|t' l IH]; intros k Hnd Hk; [discriminate|].
  apply NoDup_cons in Hnd as [Hnotin Hnd]. cbn.
  destruct k as [|k']; cbn in Hk.
  - injection Hk as ->. rewrite decide_True by reflexivity. reflexivity.
  - rewrite decide_False.
    + rewrite (IH k' Hnd Hk). reflexivity.
    + intros ->. apply Hnotin. eapply list_elem_of_lookup_2. exact Hk.
Qed.

(** ** The rows of [lp_model], with their meaning *)

Section EngineRows.
Variables (products periods : list string)
          (initial_inventory : gmap string Q)
          (effective_demand yielded_supply : gmap (string * string) Q)
          (safety_stock_target : gmap string Q)
          (shortage_cost excess_cost : Q).

Local Abbreviation pc := (Engine.period_constraints periods initial_inventory
                        effective_demand yielded_supply safety_stock_target).

Lemma period_constraints_meaning i k t r :
  pc i k t = Some r ->
  exists sst ys ed,
    safety_stock_target !! i = Some sst /\ yielded_supply !! (i, t) = Some ys /\
    effective_demand !! (i, t) = Some ed /\
    ((k = 0%nat /\ exists ii, initial_inventory !! i = Some ii /\
       forall s, Forall (sat_constraint s) r <->
         s (Inventory i t) == ii + ys - ed + s (Shortage i t) /\
         s (Excess i t) >= s (Inventory i t) - sst /\
         s (Shortage i t) >= ed - (ii + ys)) \/
     (exists k' prev, k = S k' /\ periods !! k' = Some prev /\
       forall s, Forall (sat_constraint s) r <->
         s (Inventory i t) == s (Inventory i prev) + ys - ed + s (Shortage i t) /\
         s (Excess i t) >= s (Inventory i t) - sst /\
         s (Shortage i t) >= ed - (s (Inventory i prev) + ys))).
Proof.
  unfold Engine.period_constraints.
  destruct (decide (k = 0%nat)) as [->|Hne].
  - destruct (initial_inventory !! i) as [ii|] eqn:Hii; [|discriminate].
    destruct (yielded_supply !! (i, t)) as [ys|] eqn:Hys; [|discriminate].
    destruct (effective_demand !! (i, t)) as [ed|] eqn:Hed; [|discriminate].
    destruct (safety_stock_target !! i) as [sst|] eqn:Hsst; [|discriminate].
    cbn. intros Hr. injection Hr as <-.
    exists sst, ys, ed. do 3 (split; [reflexivity|]). left.
    split; [reflexivity|]. exists ii. split; [reflexivity|].
    intros s. rewrite !Forall_cons, Forall_nil.
    unfold sat_constraint; cbn. split.
    + intros (H1 & H2 & H3 & _). repeat split; lra.
    + intros (H1 & H2 & H3). repeat split; lra.
  - destruct (periods !! (k - 1)%nat) as [prev|] eqn:Hprev; [|discriminate].
    destruct (yielded_supply !! (i, t)) as [ys|] eqn:Hys; [|discriminate].
    destruct (effective_demand !! (i, t)) as [ed|] eqn:Hed; [|discriminate].
    destruct (safety_stock_target !! i) as [sst|] eqn:Hsst; [|discriminate].
    cbn. intros Hr. injection Hr as <-.
    exists sst, ys, ed. do 3 (split; [reflexivity|]). right.
    destruct k as [|k']; [contradiction|].
    exists k', prev. split; [reflexivity|].
    replace (S k' - 1)%nat with k' in Hprev by lia. split; [exact Hprev|].
    intros s. rewrite !Forall_cons, Forall_nil.
    unfold sat_constraint; cbn. split.
    + intros (H1 & H2 & H3 & _). repeat split; lra.
    + intros (H1 & H2 & H3). repeat split; lra.
Qed.

(** Every row of the model comes from one product and one position. *)
Lemma constraints_origin cs c :
  Engine.constraints products periods initial_inventory effective_demand
    yielded_supply safety_stock_target = Some cs ->
  c ∈ cs ->
  exists i k t r, i ∈ products /\ periods !! k = Some t /\ pc i k t = Some r /\ c ∈ r.
Proof.
  intros Hcs Hc. unfold Engine.constraints in Hcs.
  destruct (for_each_elem _ _ _ _ Hcs Hc) as (i & ri & Hi & Hri & Hc').
  destruct (for_each_elem _ _ _ _ Hri Hc') as ([k t] & r & Hkt & Hr & Hc'').
  apply elem_of_enumerate in Hkt. exists i, k, t, r. auto.
Qed.

(** The variables of the model are non-negative continuous variables. *)
Lemma lp_model_problem_vars P :
  Engine.lp_model_problem products periods initial_inventory effective_demand
    yielded_supply safety_stock_target shortage_cost excess_cost = Some P ->
  forall s, Forall (sat_vardecl s) (pvars P) <->
    forall i t, i ∈ products -> t ∈ periods ->
      0 <= s (Inventory i t) /\ 0 <= s (Shortage i t) /\ 0 <= s (Excess i t).
Proof.
  unfold Engine.lp_model_problem.
  destruct (Engine.constraints _ _ _ _ _ _) as [cs|]; cbn; [|discriminate].
  intros HP. open_add_constraints HP. injection HP as <-. intros s. cbn [pvars].
  assert (Hkeys : forall i t, (i, t) ∈ Engine.keys products periods <->
                              i ∈ products /\ t ∈ periods).
  { intros i t. unfold Engine.keys. rewrite !list_elem_of_In, in_prod_iff. reflexivity. }
  rewrite !Forall_app. unfold Engine.decls. rewrite !Forall_fmap.
  rewrite !Forall_forall. split.
  - intros (HI & HS & HE) i t Hi Ht.
    assert (Hit : (i, t) ∈ Engine.keys products periods) by (apply Hkeys; auto).
    destruct (HI _ Hit) as [H1 _]. destruct (HS _ Hit) as [H2 _].
    destruct (HE _ Hit) as [H3 _]. cbn in H1, H2, H3. auto.
  - intros H. split; [|split]; intros [i t] Hit; apply Hkeys in Hit as [Hi Ht];
      destruct (H i t Hi Ht) as (H1 & H2 & H3); unfold sat_vardecl; cbn; auto.
Qed.

End EngineRows.

Section GreedyFacts.
Variables (periods : list string) (initial_inventory : gmap string Q)
          (effective_demand yielded_supply : gmap (string * string) Q)
          (safety_stock_target : gmap string Q).

Local Abbreviation plan := (greedy_plan periods initial_inventory effective_demand
                           yielded_supply safety_stock_target).
Local Abbreviation carried' := (carried periods initial_inventory effective_demand
                               yielded_supply).
Local Abbreviation pinv := (period_inventory effective_demand yielded_supply).
Local Abbreviation psh := (period_shortage effective_demand yielded_supply).

Lemma period_inventory_nonneg i t prev : 0 <= pinv i t prev.
Proof.
  unfold period_inventory, period_shortage.
  pose proof (Qmax_ge_r 0 (qget effective_demand (i, t) -
                           (prev + qget yielded_supply (i, t)))).
  lra.
Qed.

Lemma greedy_plan_nonneg v : 0 <= plan v.
Proof.
  destruct v as [i t|i t|i t]; cbn; destruct (index_of t periods) as [k|];
    try lra.
  - apply period_inventory_nonneg.
  - apply Qmax_ge_l.
  - apply Qmax_ge_l.
Qed.

Lemma greedy_plan_at i k t :
  NoDup periods -> periods !! k = Some t ->
  plan (Inventory i t) = pinv i t (carried' i k) /\
  plan (Shortage i t) = psh i t (carried' i k) /\
  plan (Excess i t) = Qmax 0 (pinv i t (carried' i k) - qget safety_stock_target i).
Proof.
  intros Hnd Hk. unfold greedy_plan. rewrite (index_of_lookup periods k t Hnd Hk).
  cbn [carried]. rewrite (nth_lookup_Some periods k "" t Hk). auto.
Qed.

End GreedyFacts.

(** ** X1 *)
(** Extra X1: whenever [lp_model] gets past its formulation and the periods
    are distinct, its problem is feasible, whatever the data: the plan that
    walks the periods, covers each deficit with shortage and books the
    surplus over the safety stock target as excess satisfies every row and
    every bound. So the solver can never report [Infeasible] for it. *)
Theorem lp_model_problem_feasible (products periods : list string)
    (initial_inventory : gmap string Q)
    (effective_demand yielded_supply : gmap (string * string) Q)
    (safety_stock_target : gmap string Q) (shortage_cost excess_cost : Q)
    (P : problem ivar) :
  NoDup periods ->
  Engine.lp_model_problem products periods initial_inventory effective_demand
    yielded_supply safety_stock_target shortage_cost excess_cost = Some P ->
  feasible P (greedy_plan periods initial_inventory effective_demand
                yielded_supply safety_stock_target).
Proof.
  intros Hnd HP. split.
  - apply (lp_model_problem_vars products periods initial_inventory effective_demand
             yielded_supply safety_stock_target shortage_cost excess_cost P HP).
    intros i t _ _. split; [|split]; apply greedy_plan_nonneg.
  - unfold Engine.lp_model_problem in HP.
    destruct (Engine.constraints _ _ _ _ _ _) as [cs|] eqn:Hcs; cbn in HP; [|discriminate].
    open_add_constraints HP. injection HP as <-. cbn [pcons]. apply Forall_forall. intros c Hc.
    destruct (constraints_origin products periods initial_inventory effective_demand
                yielded_supply safety_stock_target cs c Hcs Hc)
      as (i & k & t & r & Hi & Hk & Hr & Hcr).
    destruct (period_constraints_meaning periods initial_inventory effective_demand
                yielded_supply safety_stock_target i k t r Hr)
      as (sst & ys & ed & Hsst & Hys & Hed & Hrows).
    clear Hc. revert c Hcr. apply Forall_forall.
    destruct (greedy_plan_at periods initial_inventory effective_demand
                yielded_supply safety_stock_target i k t Hnd Hk) as (HI & HS & HE).
    destruct Hrows as [[-> (ii & Hii & Hiff)] | (k' & prev & -> & Hprev & Hiff)];
      apply Hiff; rewrite HI, HS, HE.
    + cbn [carried]. unfold period_inventory, period_shortage, qget.
      rewrite Hii, Hys, Hed, Hsst. cbn.
      pose proof (Qmax_ge_r 0 (ed - (ii + ys))).
      pose proof (Qmax_ge_r 0 (ii + ys - ed + Qmax 0 (ed - (ii + ys)) - sst)).
      repeat split; lra.
    + destruct (greedy_plan_at periods initial_inventory effective_demand
                  yielded_supply safety_stock_target i k' prev Hnd Hprev)
        as (HI' & _ & _).
      rewrite HI'. cbn [carried]. rewrite (nth_lookup_Some periods k' "" prev Hprev).
      set (c0 := period_inventory effective_demand yielded_supply i prev
                   (carried periods initial_inventory effective_demand yielded_supply i k')).
      unfold period_inventory, period_shortage, qget. rewrite Hys, Hed, Hsst. cbn.
      pose proof (Qmax_ge_r 0 (ed - (c0 + ys))).
      pose proof (Qmax_ge_r 0 (c0 + ys - ed + Qmax 0 (ed - (c0 + ys)) - sst)).
      repeat split; lra.
Qed.

Lemma lp_model_problem_feasible_witness :
  NoDup ["T1"%string] /\
  X_problem = Some X_P /\
  feasible X_P (greedy_plan ["T1"] X_init X_dem X_sup X_sst).
Proof.
  assert (Hnd : NoDup ["T1"%string]) by (repeat constructor; intros H; inversion H).
  split; [exact Hnd|]. split; [vm_compute; reflexivity|].
  exact (lp_model_problem_feasible ["X"] ["T1"] X_init X_dem X_sup X_sst 5 1 X_P
           Hnd ltac:(vm_compute; reflexivity)).
Defined.

Lemma elem_of_list_prod (products periods : list string) i t :
  (i, t) ∈ list_prod products periods <-> i ∈ products /\ t ∈ periods.
Proof. rewrite !list_elem_of_In, in_prod_iff. reflexivity. Qed.

(** The result dictionaries of [lp_model]: one entry per [(i, t)]. *)
Lemma result_dict_lookup (products periods : list string)
    (f : string -> string -> option Q) i t :
  dict_of_list (map (fun '(i, t) => ((i, t), f i t)) (list_prod products periods))
    !! (i, t) =
  if decide (i ∈ products /\ t ∈ periods) then Some (f i t) else None.
Proof.
  rewrite (dict_of_list_lookup_fun (fun k => f k.1 k.2)).
  - assert (Hk : (i, t) ∈ (map (fun '(i, t) => ((i, t), f i t))
                             (list_prod products periods)).*1 <->
                 i ∈ products /\ t ∈ periods).
    { rewrite <- elem_of_list_prod. split.
      - intros Hin. apply list_elem_of_fmap in Hin as [kv [Hkv Hin]].
        apply list_elem_of_fmap in Hin as [[i' t'] [-> Hin]]. cbn in Hkv.
        rewrite Hkv. exact Hin.
      - intros Hin. apply list_elem_of_fmap. exists ((i, t), f i t).
        split; [reflexivity|]. apply list_elem_of_fmap. exists (i, t).
        split; [reflexivity|exact Hin]. }
    destruct (decide (i ∈ products /\ t ∈ periods)) as [Hin|Hnin].
    + rewrite decide_True by (apply Hk; exact Hin). reflexivity.
    + rewrite decide_False by (rewrite Hk; exact Hnin). reflexivity.
  - intros kv Hkv. apply list_elem_of_fmap in Hkv as [[i' t'] [-> _]]. reflexivity.
Qed.

(** ** X2 *)
(** Extra X2: with non-negative shortage and excess costs, the objective of
    [lp_model] is non-negative at every feasible point, so the problem is
    never unbounded. *)
Theorem lp_model_objective_nonneg (products periods : list string)
    (initial_inventory : gmap string Q)
    (effective_demand yielded_supply : gmap (string * string) Q)
    (safety_stock_target : gmap string Q) (shortage_cost excess_cost : Q)
    (P : problem ivar) (s : ivar -> Q) :
  0 <= shortage_cost -> 0 <= excess_cost ->
  Engine.lp_model_problem products periods initial_inventory effective_demand
    yielded_supply safety_stock_target shortage_cost excess_cost = Some P ->
  feasible P s ->
  0 <= eval s (pobj P).
Proof.
  intros Hsc Hec HP [Hvars _].
  pose proof (proj1 (lp_model_problem_vars products periods initial_inventory
                       effective_demand yielded_supply safety_stock_target
                       shortage_cost excess_cost P HP s) Hvars) as Hnn.
  unfold Engine.lp_model_problem in HP.
  destruct (Engine.constraints _ _ _ _ _ _); cbn in HP; [|discriminate].
  open_add_constraints HP. injection HP as <-. cbn [pobj]. unfold Engine.objective.
  rewrite eval_lpSum, map_map. apply fold_right_Qplus_nonneg.
  intros [i t] Hit. apply elem_of_list_prod in Hit as [Hi Ht].
  destruct (Hnn i t Hi Ht) as (_ & H1 & H2). cbn.
  assert (0 <= shortage_cost * s (Shortage i t)) by (apply Qmult_le_0_compat; assumption).
  assert (0 <= excess_cost * s (Excess i t)) by (apply Qmult_le_0_compat; assumption).
  lra.
Qed.

Lemma lp_model_objective_nonneg_witness :
  0 <= 5 /\ 0 <= 1 /\ X_problem = Some X_P /\ feasible X_P X_sol /\
  0 <= eval X_sol (pobj X_P).
Proof.
  assert (H5 : 0 <= 5) by lra. assert (H1 : 0 <= 1) by lra.
  assert (HP : X_problem = Some X_P) by (vm_compute; reflexivity).
  assert (Hf : feasible X_P X_sol) by (apply X_P_feasible_iff; cbn; repeat split; lra).
  do 4 (split; [assumption|]).
  exact (lp_model_objective_nonneg ["X"] ["T1"] X_init X_dem X_sup X_sst 5 1 X_P X_sol
           H5 H1 HP Hf).
Defined.

(** ** X3 *)
(** Extra X3: the result of [lp_model] carries the solver's status, and its
    dictionaries [inventory], [shortage] and [excess] have an entry for
    [(i, t)] exactly when [i] is a product and [t] a period; the entry is
    the solver's value of the variable (possibly [None]). *)
Theorem lp_model_result_entries (products periods : list string)
    (initial_inventory : gmap string Q)
    (effective_demand yielded_supply : gmap (string * string) Q)
    (safety_stock_target : gmap string Q) (shortage_cost excess_cost : Q)
    (solve : solver) (P : problem ivar) (r : lp_results) :
  Engine.lp_model_problem products periods initial_inventory effective_demand
    yielded_supply safety_stock_target shortage_cost excess_cost = Some P ->
  Engine.lp_model products periods initial_inventory effective_demand
    yielded_supply safety_stock_target shortage_cost excess_cost solve = Some r ->
  status r = fst (solve P) /\
  forall i t,
    inventory r !! (i, t) =
      (if decide (i ∈ products /\ t ∈ periods)
       then Some (snd (solve P) (Inventory i t)) else None) /\
    shortage r !! (i, t) =
      (if decide (i ∈ products /\ t ∈ periods)
       then Some (snd (solve P) (Shortage i t)) else None) /\
    excess r !! (i, t) =
      (if decide (i ∈ products /\ t ∈ periods)
       then Some (snd (solve P) (Excess i t)) else None).
Proof.
  intros HP Hr. unfold Engine.lp_model in Hr. rewrite HP in Hr. cbn in Hr.
  destruct (solve P) as [st val]. injection Hr as <-. cbn [status inventory shortage excess fst snd].
  split; [reflexivity|]. intros i t. unfold Engine.keys.
  split; [|split];
    apply (result_dict_lookup products periods (fun i t => val (_ i t))).
Qed.

Lemma lp_model_result_entries_witness :
  X_problem = Some X_P /\
  exists r, Engine.lp_model ["X"] ["T1"] X_init X_dem X_sup X_sst 5 1
              (fun _ => (Optimal, fun v => Some (X_sol v))) = Some r /\
  status r = Optimal /\ inventory r !! ("X", "T2") = None.
Proof.
  assert (HP : X_problem = Some X_P) by (vm_compute; reflexivity).
  split; [exact HP|].
  assert (Hr : is_Some (Engine.lp_model ["X"] ["T1"] X_init X_dem X_sup X_sst 5 1
              (fun _ => (Optimal, fun v => Some (X_sol v))))) by (vm_compute; eauto).
  destruct Hr as [r Hr]. exists r. split; [exact Hr|].
  destruct (lp_model_result_entries ["X"] ["T1"] X_init X_dem X_sup X_sst 5 1 _ X_P r
              HP Hr) as [Hst Hent].
  split; [exact Hst|].
  destruct (Hent "X"%string "T2"%string) as [Hinv _]. rewrite Hinv.
  rewrite decide_False; [reflexivity|].
  intros [_ Ht]. apply elem_of_cons in Ht as [Ht|Ht]; [discriminate|inversion Ht].
Defined.

Lemma expr_vars_lpSum {V} (es : list (expr V)) :
  expr_vars (lpSum es) = concat (map expr_vars es).
Proof. induction es as [|e es IH]; cbn; [reflexivity|]. unfold lpSum in IH. rewrite IH. reflexivity. Qed.

Lemma list_prod_nil {A B} (l : list A) (l' : list B) :
  list_prod l l' = [] <-> l = [] \/ l' = [].
Proof.
  rewrite <- !length_zero_iff_nil, length_prod. lia.
Qed.

(** The objective of [lp_model] has no variable left (so PuLP solves it
    with its [__dummy] variable) exactly when there is no product, no
    period, or both costs are 0. *)
Lemma objective_vars_nil (products periods : list string) (shortage_cost excess_cost : Q) :
  expr_vars (Engine.objective products periods shortage_cost excess_cost) = [] <->
  products = [] \/ periods = [] \/ (shortage_cost == 0 /\ excess_cost == 0).
Proof.
  transitivity (list_prod products periods = [] \/
                (shortage_cost == 0 /\ excess_cost == 0));
    [|rewrite list_prod_nil; tauto].
  unfold Engine.objective, Engine.keys. rewrite expr_vars_lpSum, map_map.
  destruct (Qeq_bool shortage_cost 0) eqn:Hs, (Qeq_bool excess_cost 0) eqn:He.
  - apply Qeq_bool_iff in Hs, He.
    assert (Hn : concat (map (fun x => expr_vars ((fun '(i, t) =>
              Add (Scale shortage_cost (Var (Shortage i t)))
                  (Scale excess_cost (Var (Excess i t)))) x))
              (list_prod products periods)) = []).
    { induction (list_prod products periods) as [|[i t] l IH]; [reflexivity|].
      cbn. rewrite (proj2 (Qeq_bool_iff _ _) Hs), (proj2 (Qeq_bool_iff _ _) He).
      exact IH. }
    rewrite Hn. split; [intros _; right; split; assumption|reflexivity].
  - apply Qeq_bool_neq in He.
    destruct (list_prod products periods) as [|[i t] l]; cbn.
    + split; [intros _; left; reflexivity|reflexivity].
    + rewrite (proj2 (Qeq_bool_iff _ _) (proj1 (Qeq_bool_iff _ _) Hs)).
      destruct (Qeq_bool excess_cost 0) eqn:He'; [apply Qeq_bool_iff in He'; contradiction|].
      cbn. split; [discriminate|]. intros [H|[_ H]]; [discriminate|contradiction].
  - apply Qeq_bool_neq in Hs.
    destruct (list_prod products periods) as [|[i t] l]; cbn.
    + split; [intros _; left; reflexivity|reflexivity].
    + destruct (Qeq_bool shortage_cost 0) eqn:Hs'; [apply Qeq_bool_iff in Hs'; contradiction|].
      cbn. split; [discriminate|]. intros [H|[H _]]; [discriminate|contradiction].
  - apply Qeq_bool_neq in Hs.
    destruct (list_prod products periods) as [|[i t] l]; cbn.
    + split; [intros _; left; reflexivity|reflexivity].
    + destruct (Qeq_bool shortage_cost 0) eqn:Hs'; [apply Qeq_bool_iff in Hs'; contradiction|].
      cbn. split; [discriminate|]. intros [H|[H _]]; [discriminate|contradiction].
Qed.

(** The value of one term of the objective: a term with cost 0 is gone. *)
Lemma value_cost_term_None (val : ivar -> option Q) (sc ec : Q) i t :
  value val (Add (Scale sc (Var (Shortage i t))) (Scale ec (Var (Excess i t)))) = None <->
  (~ sc == 0 /\ val (Shortage i t) = None) \/ (~ ec == 0 /\ val (Excess i t) = None).
Proof.
  cbn. destruct (Qeq_bool sc 0) eqn:Hs, (Qeq_bool ec 0) eqn:He;
    [apply Qeq_bool_iff in Hs, He|apply Qeq_bool_iff in Hs; apply Qeq_bool_neq in He
    |apply Qeq_bool_neq in Hs; apply Qeq_bool_iff in He
    |apply Qeq_bool_neq in Hs, He];
    destruct (val (Shortage i t)), (val (Excess i t)); cbn;
    split; try discriminate; try tauto; intros [[H1 H2]|[H1 H2]];
    solve [contradiction | discriminate].
Qed.

(** When every variable of an expression has a value, [value] agrees with
    [eval]. *)
Lemma value_eval {V} (val : V -> option Q) (g : V -> Q) (e : expr V) :
  (forall v, v ∈ expr_vars e -> val v = Some (g v)) ->
  exists q, value val e = Some q /\ q == eval g e.
Proof.
  induction e as [q|v|e1 IH1 e2 IH2|e1 IH1 e2 IH2|q e IH]; cbn; intros H.
  - exists q. split; reflexivity.
  - exists (g v). split; [apply H; left|reflexivity].
  - destruct IH1 as (q1 & H1 & E1); [intros v Hv; apply H, elem_of_app; left; exact Hv|].
    destruct IH2 as (q2 & H2 & E2); [intros v Hv; apply H, elem_of_app; right; exact Hv|].
    rewrite H1, H2. cbn. exists (q1 + q2). split; [reflexivity|]. rewrite E1, E2. reflexivity.
  - destruct IH1 as (q1 & H1 & E1); [intros v Hv; apply H, elem_of_app; left; exact Hv|].
    destruct IH2 as (q2 & H2 & E2); [intros v Hv; apply H, elem_of_app; right; exact Hv|].
    rewrite H1, H2. cbn. exists (q1 - q2). split; [reflexivity|]. rewrite E1, E2. reflexivity.
  - destruct (Qeq_bool q 0) eqn:Hq.
    + apply Qeq_bool_iff in Hq. exists 0. split; [reflexivity|]. rewrite Hq. ring.
    + destruct IH as (q1 & H1 & E1); [exact H|].
      rewrite H1. cbn. exists (q * q1). split; [reflexivity|]. rewrite E1. reflexivity.
Qed.

(** ** X4 *)
(** Extra X4: the [total_cost] of [lp_model] ([pulp.value] of the
    objective) is [None] exactly when the objective has no variable left
    (no product, no period, or both costs 0: PuLP then solves with its
    [__dummy] variable, which never gets a value), or the solver left
    without a value the shortage variable of some product and period
    while the shortage cost is not 0, or the excess variable while the
    excess cost is not 0. *)
Theorem lp_model_total_cost_None (products periods : list string)
    (initial_inventory : gmap string Q)
    (effective_demand yielded_supply : gmap (string * string) Q)
    (safety_stock_target : gmap string Q) (shortage_cost excess_cost : Q)
    (solve : solver) (P : problem ivar) (r : lp_results) :
  Engine.lp_model_problem products periods initial_inventory effective_demand
    yielded_supply safety_stock_target shortage_cost excess_cost = Some P ->
  Engine.lp_model products periods initial_inventory effective_demand
    yielded_supply safety_stock_target shortage_cost excess_cost solve = Some r ->
  total_cost r = None <->
  products = [] \/ periods = [] \/ (shortage_cost == 0 /\ excess_cost == 0) \/
  exists i t, i ∈ products /\ t ∈ periods /\
    ((~ shortage_cost == 0 /\ snd (solve P) (Shortage i t) = None) \/
     (~ excess_cost == 0 /\ snd (solve P) (Excess i t) = None)).
Proof.
  intros HP Hr. unfold Engine.lp_model in Hr. rewrite HP in Hr. cbn in Hr.
  destruct (solve P) as [st val]. injection Hr as <-. cbn [total_cost snd].
  unfold Engine.lp_model_problem in HP.
  destruct (Engine.constraints _ _ _ _ _ _); cbn in HP; [|discriminate].
  open_add_constraints HP. injection HP as <-. cbn [pobj].
  pose proof (objective_vars_nil products periods shortage_cost excess_cost) as Hnil.
  unfold objective_value.
  destruct (expr_vars (Engine.objective products periods shortage_cost excess_cost))
    as [|v vs] eqn:Hev.
  { split; [intros _|reflexivity]. destruct (proj1 Hnil eq_refl) as [H|[H|H]]; auto. }
  assert (Hne : ~ (products = [] \/ periods = [] \/
                   (shortage_cost == 0 /\ excess_cost == 0)))
    by (rewrite <- Hnil; discriminate).
  unfold Engine.objective, Engine.keys. rewrite value_lpSum_None. split.
  - intros (e & He & Hn). apply list_elem_of_fmap in He as [[i t] [-> Hit]].
    apply elem_of_list_prod in Hit as [Hi Ht]. right; right; right. exists i, t.
    split; [exact Hi|]. split; [exact Ht|]. apply value_cost_term_None. exact Hn.
  - intros [H|[H|[H|(i & t & Hi & Ht & Hn)]]]; [tauto|tauto|tauto|].
    exists (Add (Scale shortage_cost (Var (Shortage i t)))
                (Scale excess_cost (Var (Excess i t)))).
    split.
    + apply list_elem_of_fmap. exists (i, t).
      split; [reflexivity|apply elem_of_list_prod; auto].
    + apply value_cost_term_None. exact Hn.
Qed.

Lemma lp_model_total_cost_None_witness :
  X_problem = Some X_P /\
  exists r, Engine.lp_model ["X"] ["T1"] X_init X_dem X_sup X_sst 5 1 no_solver = Some r /\
  total_cost r = None.
Proof.
  assert (HP : X_problem = Some X_P) by (vm_compute; reflexivity).
  split; [exact HP|].
  assert (Hr : is_Some (Engine.lp_model ["X"] ["T1"] X_init X_dem X_sup X_sst 5 1
                          no_solver)) by (vm_compute; eauto).
  destruct Hr as [r Hr]. exists r. split; [exact Hr|].
  apply (lp_model_total_cost_None ["X"] ["T1"] X_init X_dem X_sup X_sst 5 1
           no_solver X_P r HP Hr).
  right; right; right. exists "X"%string, "T1"%string.
  split; [left|]. split; [left|]. left. split; [intros H; inversion H|reflexivity].
Defined.

(** ** X5 *)
(** Extra X5: the cost breakdown printed by engine.py's [main] (and summed
    in server.py's [optimize_inventory]) adds up to the [total_cost]
    reported by [lp_model] as soon as there is a product and a period, one
    of the two costs is not 0, and the solver gives a value to every
    shortage and excess variable: total shortage cost plus total excess
    cost equals the value of the objective. *)
Theorem cost_breakdown_total (products periods : list string)
    (initial_inventory : gmap string Q)
    (effective_demand yielded_supply : gmap (string * string) Q)
    (safety_stock_target : gmap string Q) (shortage_cost excess_cost : Q)
    (solve : solver) (P : problem ivar) (r : lp_results) :
  products <> [] -> periods <> [] -> ~ (shortage_cost == 0 /\ excess_cost == 0) ->
  Engine.lp_model_problem products periods initial_inventory effective_demand
    yielded_supply safety_stock_target shortage_cost excess_cost = Some P ->
  Engine.lp_model products periods initial_inventory effective_demand
    yielded_supply safety_stock_target shortage_cost excess_cost solve = Some r ->
  (forall i t, i ∈ products -> t ∈ periods ->
     is_Some (snd (solve P) (Shortage i t)) /\ is_Some (snd (solve P) (Excess i t))) ->
  exists q, total_cost r = Some q /\
    total_shortage_cost products periods shortage_cost r +
    total_excess_cost products periods excess_cost r == q.
Proof.
  intros Hp Ht0 Hc HP Hr Hvals. unfold Engine.lp_model in Hr. rewrite HP in Hr. cbn in Hr.
  destruct (solve P) as [st val]. injection Hr as <-. cbn [snd] in Hvals.
  unfold Engine.lp_model_problem in HP.
  destruct (Engine.constraints _ _ _ _ _ _); cbn in HP; [|discriminate].
  open_add_constraints HP. injection HP as <-. cbn [total_cost pobj shortage excess].
  unfold total_shortage_cost, total_excess_cost, aggregate_cost.
  cbn [shortage excess]. unfold objective_value.
  destruct (expr_vars (Engine.objective products periods shortage_cost excess_cost))
    as [|v vs] eqn:Hev.
  { apply objective_vars_nil in Hev. tauto. }
  set (vget := fun v => default 0 (val v)).
  destruct (value_eval val vget (Engine.objective products periods shortage_cost excess_cost))
    as (q & Hq & Hqe).
  { intros w Hw. unfold Engine.objective, Engine.keys in Hw.
    rewrite expr_vars_lpSum, list_elem_of_In, in_concat in Hw.
    destruct Hw as (ws & Hws & Hw). apply list_elem_of_In in Hws, Hw.
    apply list_elem_of_fmap in Hws as [e [-> He]].
    apply list_elem_of_fmap in He as [[i t] [-> Hit]].
    apply elem_of_list_prod in Hit as [Hi Ht].
    destruct (Hvals i t Hi Ht) as [[a Ha] [b Hb]].
    cbn in Hw. unfold vget.
    destruct (Qeq_bool shortage_cost 0), (Qeq_bool excess_cost 0); cbn in Hw;
      repeat (apply elem_of_cons in Hw as [->|Hw]; [rewrite ?Ha, ?Hb; reflexivity|]);
      inversion Hw. }
  exists q. split; [exact Hq|].
  unfold Engine.objective, Engine.keys in Hqe. rewrite eval_lpSum, map_map in Hqe.
  rewrite !foldl_Qplus_fold_right.
  assert (Hsh : fold_right Qplus 0
      (map (fun '(i, t) => shortage_cost * py_or (dict_get
         (dict_of_list (map (fun '(i, t) => ((i, t), val (Shortage i t)))
                          (list_prod products periods))) (i, t) (Some 0)) 0)
           (list_prod products periods)) ==
      fold_right Qplus 0 (map (fun x => shortage_cost * vget (Shortage x.1 x.2))
                              (list_prod products periods))).
  { apply fold_right_Qplus_ext. intros [i t] Hit. cbn.
    unfold dict_get. rewrite (result_dict_lookup products periods (fun i t => val (Shortage i t))).
    rewrite decide_True by (apply elem_of_list_prod; exact Hit).
    rewrite py_or_zero. reflexivity. }
  assert (Hex : fold_right Qplus 0
      (map (fun '(i, t) => excess_cost * py_or (dict_get
         (dict_of_list (map (fun '(i, t) => ((i, t), val (Excess i t)))
                          (list_prod products periods))) (i, t) (Some 0)) 0)
           (list_prod products periods)) ==
      fold_right Qplus 0 (map (fun x => excess_cost * vget (Excess x.1 x.2))
                              (list_prod products periods))).
  { apply fold_right_Qplus_ext. intros [i t] Hit. cbn.
    unfold dict_get. rewrite (result_dict_lookup products periods (fun i t => val (Excess i t))).
    rewrite decide_True by (apply elem_of_list_prod; exact Hit).
    rewrite py_or_zero. reflexivity. }
  assert (Hobj : fold_right Qplus 0
      (map (fun x => eval vget ((fun '(i, t) => Add (Scale shortage_cost (Var (Shortage i t)))
                                   (Scale excess_cost (Var (Excess i t)))) x))
           (list_prod products periods)) ==
      fold_right Qplus 0 (map (fun x => shortage_cost * vget (Shortage x.1 x.2) +
                                       excess_cost * vget (Excess x.1 x.2))
                              (list_prod products periods))).
  { apply fold_right_Qplus_ext. intros [i t] _. reflexivity. }
  rewrite fold_right_Qplus_add in Hobj.
  rewrite Hsh. rewrite Hex. rewrite Hqe, Hobj. ring.
Qed.

Lemma cost_breakdown_total_witness :
  X_problem = Some X_P /\
  exists r q, Engine.lp_model ["X"] ["T1"] X_init X_dem X_sup X_sst 5 1
                (fun _ => (Optimal, fun v => Some (X_sol v))) = Some r /\
  total_cost r = Some q /\
  total_shortage_cost ["X"] ["T1"] 5 r + total_excess_cost ["X"] ["T1"] 1 r == q.
Proof.
  assert (HP : X_problem = Some X_P) by (vm_compute; reflexivity).
  split; [exact HP|].
  assert (Hr : is_Some (Engine.lp_model ["X"] ["T1"] X_init X_dem X_sup X_sst 5 1
                (fun _ => (Optimal, fun v => Some (X_sol v))))) by (vm_compute; eauto).
  destruct Hr as [r Hr].
  destruct (cost_breakdown_total ["X"] ["T1"] X_init X_dem X_sup X_sst 5 1 _ X_P r
              ltac:(discriminate) ltac:(discriminate)
              ltac:(intros [H _]; inversion H) HP Hr)
    as [q Hq].
  - intros i t _ _. cbn. split; eauto.
  - exists r, q. split; [exact Hr|exact Hq].
Defined.

(** ** The rows of the multi-period plan, with their meaning *)

Lemma for_each_member {A B} (f : A -> option (list B)) (l : list A) cs x :
  for_each f l = Some cs -> x ∈ l ->
  exists r, f x = Some r /\ forall c, c ∈ r -> c ∈ cs.
Proof.
  revert cs. induction l as [|y l IH]; intros cs Hcs Hx; [inversion Hx|].
  cbn in Hcs.
  destruct (f y) as [ry|] eqn:Hfy; [|discriminate].
  destruct (for_each f l) as [rest|] eqn:Hl; [|discriminate].
  cbn in Hcs. injection Hcs as <-.
  apply elem_of_cons in Hx as [->|Hx].
  - exists ry. split; [exact Hfy|]. intros c Hc. apply elem_of_app. left. exact Hc.
  - destruct (IH rest eq_refl Hx) as (r & Hr & Hsub). exists r. split; [exact Hr|].
    intros c Hc. apply elem_of_app. right. auto.
Qed.

Lemma mapM_member {A B} (f : A -> option B) (l : list A) (ys : list B) x :
  mapM f l = Some ys -> x ∈ l -> exists y, f x = Some y /\ y ∈ ys.
Proof.
  intros Hm Hx. apply mapM_Some in Hm.
  apply list_elem_of_lookup in Hx as [k Hk].
  destruct (Forall2_lookup_l _ _ _ _ _ Hm Hk) as (y & Hy & Hfy).
  exists y. split; [exact Hfy|]. eapply list_elem_of_lookup_2. exact Hy.
Qed.

Section MultiPeriodFacts.
Variables (products periods : list string)
          (initial_inventory safety_stock production_cost : gmap string Q)
          (holding_cost_rate : Q) (demand : gmap (string * string) Q)
          (machine_capacity labor_capacity machine_hours labor_hours : gmap string Q).

Lemma multi_period_feasible_facts (P : problem pvar) (s : pvar -> Q) :
  multi_period_model products periods initial_inventory safety_stock
    production_cost holding_cost_rate demand machine_capacity labor_capacity
    machine_hours labor_hours = Some P ->
  feasible P s ->
  (forall p t, p ∈ products -> t ∈ periods -> 0 <= s (X p t) /\ 0 <= s (Inv p t)) /\
  (forall p k t, p ∈ products -> periods !! k = Some t ->
     exists d, demand !! (p, t) = Some d /\
       (k = 0%nat -> exists ii, initial_inventory !! p = Some ii /\
          s (Inv p t) == ii + s (X p t) - d) /\
       (forall k', k = S k' -> exists prev, periods !! k' = Some prev /\
          s (Inv p t) == s (Inv p prev) + s (X p t) - d)) /\
  (forall t, t ∈ periods ->
     exists mc lc, machine_capacity !! t = Some mc /\ labor_capacity !! t = Some lc /\
       (forall p, p ∈ products ->
          is_Some (machine_hours !! p) /\ is_Some (labor_hours !! p)) /\
       fold_right Qplus 0 (map (fun p => qget machine_hours p * s (X p t)) products) <= mc /\
       fold_right Qplus 0 (map (fun p => qget labor_hours p * s (X p t)) products) <= lc) /\
  (forall p, p ∈ products ->
     exists last_t ss, last periods = Some last_t /\ safety_stock !! p = Some ss /\
       ss <= s (Inv p last_t)).
Proof.
  intros HP [Hvars Hcons]. unfold multi_period_model in HP. simplify_option_eq; drop_add_constraints.
  cbn [pvars pcons] in Hvars, Hcons.
  rewrite Forall_forall in Hvars. rewrite Forall_forall in Hcons.
  match goal with
  | Hb : for_each _ products = Some ?bal, Hc : for_each _ periods = Some ?cap |- _ =>
      rename Hb into Hbal; rename Hc into Hcap
  end.
  match goal with
  | Hs : mapM _ products = Some ?saf |- _ =>
      let T := type of saf in unify T (list (constraint pvar)); rename Hs into Hsaf
  end.
  split; [|split; [|split]].
  - intros p t Hp Ht.
    assert (Hpt : (p, t) ∈ list_prod products periods) by (apply elem_of_list_prod; auto).
    split.
    + assert (Hd : mkVar (X p t) (Some 0) None Integer ∈
                   map (fun '(p, t) => mkVar (X p t) (Some 0) None Integer)
                       (list_prod products periods) ++
                   map (fun '(p, t) => mkVar (Inv p t) (Some 0) None Integer)
                       (list_prod products periods)).
      { apply elem_of_app. left. apply list_elem_of_fmap. exists (p, t). auto. }
      destruct (Hvars _ Hd) as [Hlow _]. exact Hlow.
    + assert (Hd : mkVar (Inv p t) (Some 0) None Integer ∈
                   map (fun '(p, t) => mkVar (X p t) (Some 0) None Integer)
                       (list_prod products periods) ++
                   map (fun '(p, t) => mkVar (Inv p t) (Some 0) None Integer)
                       (list_prod products periods)).
      { apply elem_of_app. right. apply list_elem_of_fmap. exists (p, t). auto. }
      destruct (Hvars _ Hd) as [Hlow _]. exact Hlow.
  - intros p k t Hp Hk.
    destruct (for_each_member _ _ _ p Hbal Hp) as (rp & Hrp & Hsubp).
    destruct (for_each_member _ _ _ (k, t) Hrp ltac:(apply elem_of_enumerate; exact Hk))
      as (r & Hr & Hsub).
    assert (Hsat : forall c, c ∈ r -> sat_constraint s c).
    { intros c Hc. apply Hcons. apply elem_of_app. left. apply Hsubp, Hsub, Hc. }
    clear Hsub Hsubp Hrp. cbn beta iota in Hr.
    destruct k as [|k'].
    + rewrite decide_True in Hr by reflexivity.
      destruct (initial_inventory !! p) as [ii|] eqn:Hii; cbn in Hr; [|discriminate].
      destruct (demand !! (p, t)) as [d|] eqn:Hd; cbn in Hr; [|discriminate].
      injection Hr as <-. specialize (Hsat _ ltac:(left)).
      unfold sat_constraint in Hsat; cbn in Hsat.
      exists d. split; [reflexivity|]. split.
      * intros _. exists ii. split; [reflexivity|]. lra.
      * intros k' Hk'. discriminate.
    + rewrite decide_False in Hr by lia.
      replace (S k' - 1)%nat with k' in Hr by lia.
      destruct (periods !! k') as [prev|] eqn:Hprev; cbn in Hr; [|discriminate].
      destruct (demand !! (p, t)) as [d|] eqn:Hd; cbn in Hr; [|discriminate].
      injection Hr as <-. specialize (Hsat _ ltac:(left)).
      unfold sat_constraint in Hsat; cbn in Hsat.
      exists d. split; [reflexivity|]. split.
      * intros Hk0. discriminate.
      * intros k'' Hk''. injection Hk'' as <-. exists prev.
        split; [exact Hprev|]. lra.
  - intros t Ht.
    destruct (for_each_member _ _ _ t Hcap Ht) as (r & Hr & Hsub).
    assert (Hsat : forall c, c ∈ r -> sat_constraint s c).
    { intros c Hc. apply Hcons. apply elem_of_app. right. apply elem_of_app. left.
      apply Hsub, Hc. }
    clear Hsub.
    revert Hr.
    match goal with |- context [mapM ?f products] =>
      destruct (mapM f products) as [mterms|] eqn:Hm; cbn; [|discriminate] end.
    destruct (machine_capacity !! t) as [mc|] eqn:Hmc; cbn; [|discriminate].
    match goal with |- context [mapM ?f products] =>
      destruct (mapM f products) as [lterms|] eqn:Hl; cbn; [|discriminate] end.
    destruct (labor_capacity !! t) as [lc|] eqn:Hlc; cbn; [|discriminate].
    intros Hr. injection Hr as <-.
    destruct (mapM_lookup_map machine_hours (fun h p => Scale h (Var (X p t)))
                products (fun p => p) mterms Hm) as [HmS ->].
    destruct (mapM_lookup_map labor_hours (fun h p => Scale h (Var (X p t)))
                products (fun p => p) lterms Hl) as [HlS ->].
    pose proof (Hsat _ ltac:(left)) as Hm1.
    pose proof (Hsat _ ltac:(right; left)) as Hl1.
    unfold sat_constraint in Hm1, Hl1; cbn [csense clhs crhs eval] in Hm1, Hl1.
    rewrite eval_lpSum, map_map in Hm1, Hl1.
    exists mc, lc. split; [reflexivity|]. split; [reflexivity|].
    split; [intros p Hp; split; auto|].
    split; [exact Hm1|exact Hl1].
  - intros p Hp.
    destruct (mapM_member _ _ _ p Hsaf Hp) as (c & Hc & Hcin).
    destruct (last periods) as [last_t|] eqn:Hlast; cbn in Hc; [|discriminate].
    destruct (safety_stock !! p) as [ss|] eqn:Hss; cbn in Hc; [|discriminate].
    injection Hc as <-.
    assert (Hsat : sat_constraint s (mkConstraint ("Safety_Stock_" +:+ p)
                     (Var (Inv p last_t)) GE (Const ss))).
    { apply Hcons. apply elem_of_app. right. apply elem_of_app. right. exact Hcin. }
    unfold sat_constraint in Hsat; cbn in Hsat.
    exists last_t, ss. auto.
Qed.

End MultiPeriodFacts.

Lemma fold_right_Qplus_app (l1 l2 : list Q) :
  fold_right Qplus 0 (l1 ++ l2) == fold_right Qplus 0 l1 + fold_right Qplus 0 l2.
Proof. induction l1 as [|x l1 IH]; cbn; [ring|]. rewrite IH. ring. Qed.

Lemma fold_right_Qplus_sub {A} (f g : A -> Q) (l : list A) :
  fold_right Qplus 0 (map (fun x => f x - g x) l) ==
  fold_right Qplus 0 (map f l) - fold_right Qplus 0 (map g l).
Proof. induction l as [|x l IH]; cbn; [ring|]. rewrite IH. ring. Qed.

Lemma py_sum_fold_right (l : list Q) : py_sum l == fold_right Qplus 0 l.
Proof. unfold py_sum. rewrite foldl_Qplus_fold_right. ring. Qed.

Lemma mapM_lookup_Some {A B} (m : gmap string Q) (g : Q -> A -> B)
    (l : list A) (f : A -> string) :
  (forall a, a ∈ l -> is_Some (m !! f a)) ->
  mapM (fun a => h ← m !! f a; Some (g h a)) l =
  Some (map (fun a => g (qget m (f a)) a) l).
Proof.
  induction l as [|a l IH]; intros H; cbn; [reflexivity|].
  destruct (H a ltac:(left)) as [h Hh]. rewrite Hh. cbn.
  rewrite IH by (intros b Hb; apply H; right; exact Hb). cbn.
  unfold qget. rewrite Hh. reflexivity.
Qed.

Lemma py_div_pos (a b : Q) : 0 < b -> py_div a b = Some (a / b).
Proof.
  intros Hb. unfold py_div. destruct (Qeq_bool b 0) eqn:E; [|reflexivity].
  apply Qeq_bool_eq in E. rewrite E in Hb. discriminate.
Qed.

Lemma py_div_zero (a b : Q) : b == 0 -> py_div a b = None.
Proof. intros Hb. unfold py_div. rewrite (Qeq_eq_bool _ _ Hb). reflexivity. Qed.

(** ** X6 *)
(** Extra X6: at every feasible point of the multi-period plan, the
    inventory of product [p] at the end of the period at position [k] is
    its initial inventory plus the production minus the demand of the
    periods up to and including position [k]. *)
Theorem multi_period_cumulative_inventory (products periods : list string)
    (initial_inventory safety_stock production_cost : gmap string Q)
    (holding_cost_rate : Q) (demand : gmap (string * string) Q)
    (machine_capacity labor_capacity machine_hours labor_hours : gmap string Q)
    (P : problem pvar) (s : pvar -> Q) :
  multi_period_model products periods initial_inventory safety_stock
    production_cost holding_cost_rate demand machine_capacity labor_capacity
    machine_hours labor_hours = Some P ->
  feasible P s ->
  forall p k t, p ∈ products -> periods !! k = Some t ->
    exists ii, initial_inventory !! p = Some ii /\
      s (Inv p t) == ii + fold_right Qplus 0
        (map (fun t' => s (X p t') - qget demand (p, t')) (take (S k) periods)).
Proof.
  intros HP Hf p k t Hp Hk.
  destruct (multi_period_feasible_facts products periods initial_inventory safety_stock
              production_cost holding_cost_rate demand machine_capacity labor_capacity
              machine_hours labor_hours P s HP Hf) as (_ & Hbal & _ & _).
  destruct periods as [|t0 ts] eqn:Hper; [discriminate|].
  rewrite <- Hper in *.
  destruct (Hbal p 0%nat t0 Hp ltac:(rewrite Hper; reflexivity)) as (d0 & Hd0 & Hfirst & _).
  destruct (Hfirst eq_refl) as (ii & Hii & _).
  exists ii. split; [exact Hii|].
  revert t Hk. induction k as [|k' IH]; intros t Hk.
  - destruct (Hbal p 0%nat t Hp Hk) as (d & Hd & H0 & _).
    destruct (H0 eq_refl) as (ii' & Hii' & Heq). rewrite Hii in Hii'.
    injection Hii' as <-.
    rewrite Hper in Hk. injection Hk as <-. rewrite Hper. cbn.
    unfold qget. rewrite Hd. rewrite take_0. cbn. rewrite Heq. ring.
  - destruct (Hbal p (S k') t Hp Hk) as (d & Hd & _ & HS).
    destruct (HS k' eq_refl) as (prev & Hprev & Heq).
    rewrite (take_S_r periods (S k') t Hk), map_app, fold_right_Qplus_app.
    rewrite Heq, (IH prev Hprev). cbn.
    assert (Hq : qget demand (p, t) = d) by (unfold qget; rewrite Hd; reflexivity).
    rewrite Hq. ring.
Qed.

Lemma mp_main_feasible :
  exists P, multi_period_main = Some P /\ feasible P mp_plan.
Proof.
  assert (H : exists P, multi_period_main = Some P /\ feasibleb P mp_plan = true).
  { eexists. split; [vm_compute; reflexivity|]. vm_compute. reflexivity. }
  destruct H as (P & HP & Hb). exists P. split; [exact HP|]. apply feasibleb_spec, Hb.
Qed.

Lemma multi_period_cumulative_inventory_witness :
  exists P, multi_period_main = Some P /\ feasible P mp_plan /\
    "A"%string ∈ ["A"; "B"] /\ ["January"; "February"; "March"] !! 2%nat = Some "March"%string /\
    exists ii, ({[ "A" := 100; "B" := 120 ]} : gmap string Q) !! "A"%string = Some ii /\
      mp_plan (Inv "A" "March") == ii + fold_right Qplus 0
        (map (fun t' => mp_plan (X "A" t') -
                 qget ({[ ("A", "January") := 700; ("A", "February") := 900;
                          ("A", "March") := 1000; ("B", "January") := 800;
                          ("B", "February") := 600; ("B", "March") := 900 ]}
                       : gmap (string * string) Q) ("A", t'))
             (take 3 ["January"; "February"; "March"])).
Proof.
  destruct mp_main_feasible as (P & HP & Hf).
  exists P. split; [exact HP|]. split; [exact Hf|].
  split; [left|]. split; [reflexivity|].
  unfold multi_period_main in HP.
  exact (multi_period_cumulative_inventory _ _ _ _ _ _ _ _ _ _ _ P mp_plan HP Hf
           "A" 2 "March" ltac:(left) eq_refl).
Defined.

(** ** X7 *)
(** Extra X7: a product whose total need over the horizon (safety stock
    plus total demand minus initial inventory), in machine hours, exceeds
    the total machine capacity of all periods makes the multi-period plan
    infeasible, when no product has negative machine hours. *)
Theorem multi_period_capacity_infeasible (products periods : list string)
    (initial_inventory safety_stock production_cost : gmap string Q)
    (holding_cost_rate : Q) (demand : gmap (string * string) Q)
    (machine_capacity labor_capacity machine_hours labor_hours : gmap string Q)
    (P : problem pvar) (p : string) (ii ss : Q) :
  multi_period_model products periods initial_inventory safety_stock
    production_cost holding_cost_rate demand machine_capacity labor_capacity
    machine_hours labor_hours = Some P ->
  p ∈ products ->
  (forall p', p' ∈ products -> 0 <= qget machine_hours p') ->
  initial_inventory !! p = Some ii -> safety_stock !! p = Some ss ->
  fold_right Qplus 0 (map (qget machine_capacity) periods) <
  qget machine_hours p *
    (ss + fold_right Qplus 0 (map (fun t => qget demand (p, t)) periods) - ii) ->
  forall s, ~ feasible P s.
Proof.
  intros HP Hp Hmh Hii Hss Hlt s Hf.
  destruct (multi_period_feasible_facts products periods initial_inventory safety_stock
              production_cost holding_cost_rate demand machine_capacity labor_capacity
              machine_hours labor_hours P s HP Hf) as (Hnn & _ & Hcap & Hsafe).
  destruct (Hsafe p Hp) as (last_t & ss' & Hlast & Hss' & Hge).
  rewrite Hss in Hss'. injection Hss' as <-.
  assert (Hlk : periods !! pred (length periods) = Some last_t)
    by (rewrite <- last_lookup; exact Hlast).
  destruct (multi_period_cumulative_inventory products periods initial_inventory
              safety_stock production_cost holding_cost_rate demand machine_capacity
              labor_capacity machine_hours labor_hours P s HP Hf p _ last_t Hp Hlk)
    as (ii' & Hii' & Hinv).
  rewrite Hii in Hii'. injection Hii' as <-.
  assert (Hlen : (0 < length periods)%nat)
    by (apply lookup_lt_Some in Hlk; lia).
  rewrite take_ge in Hinv by lia.
  rewrite fold_right_Qplus_sub in Hinv.
  (* production of [p] over the horizon, in machine hours *)
  set (Xp := fold_right Qplus 0 (map (fun t => s (X p t)) periods)) in *.
  set (Dp := fold_right Qplus 0 (map (fun t => qget demand (p, t)) periods)) in *.
  assert (Hcover : ss + Dp - ii <= Xp) by lra.
  assert (Hper : forall t, t ∈ periods ->
            qget machine_hours p * s (X p t) <= qget machine_capacity t).
  { intros t Ht. destruct (Hcap t Ht) as (mc & lc & Hmc & _ & _ & Hm & _).
    unfold qget at 2. rewrite Hmc. cbn.
    eapply Qle_trans; [|exact Hm].
    apply (fold_right_Qplus_member (fun p' => qget machine_hours p' * s (X p' t))
             products p Hp).
    intros p' Hp'. apply Qmult_le_0_compat; [apply Hmh, Hp'|].
    apply (Hnn p' t Hp' Ht). }
  assert (Hsum : fold_right Qplus 0
                   (map (fun t => qget machine_hours p * s (X p t)) periods) <=
                 fold_right Qplus 0 (map (qget machine_capacity) periods))
    by (apply fold_right_Qplus_le; exact Hper).
  rewrite fold_right_Qplus_scale in Hsum. fold Xp in Hsum.
  assert (Hmono : qget machine_hours p * (ss + Dp - ii) <= qget machine_hours p * Xp).
  { rewrite !(Qmult_comm (qget machine_hours p)).
    apply Qmult_le_compat_r; [exact Hcover|]. apply Hmh, Hp. }
  lra.
Qed.

Lemma multi_period_capacity_infeasible_witness :
  exists P, multi_period_model ["A"] ["T"] {[ "A" := 0 ]} {[ "A" := 0 ]} {[ "A" := 1 ]} 0
              {[ ("A", "T") := 100 ]} {[ "T" := 10 ]} {[ "T" := 1000 ]}
              {[ "A" := 1 ]} {[ "A" := 1 ]} = Some P /\
    forall s, ~ feasible P s.
Proof.
  assert (H : is_Some (multi_period_model ["A"] ["T"] {[ "A" := 0 ]} {[ "A" := 0 ]}
              {[ "A" := 1 ]} 0 {[ ("A", "T") := 100 ]} {[ "T" := 10 ]} {[ "T" := 1000 ]}
              {[ "A" := 1 ]} {[ "A" := 1 ]})) by (vm_compute; eauto).
  destruct H as [P HP]. exists P. split; [exact HP|].
  apply (multi_period_capacity_infeasible _ _ _ _ _ _ _ _ _ _ _ P "A" 0 0 HP).
  - left.
  - intros p' Hp'. apply elem_of_cons in Hp' as [->|Hp']; [|inversion Hp'].
    vm_compute. discriminate.
  - reflexivity.
  - reflexivity.
  - vm_compute. reflexivity.
Defined.

(** ** X8 *)
(** Extra X8: at every feasible point of the multi-period plan, the
    resource report of multi-period.py's [main] for a period with positive
    machine and labour capacities raises no error and shows hours used
    within the capacities and utilisations of at most 100%. *)
Theorem resource_utilization_bounded (products periods : list string)
    (initial_inventory safety_stock production_cost : gmap string Q)
    (holding_cost_rate : Q) (demand : gmap (string * string) Q)
    (machine_capacity labor_capacity machine_hours labor_hours : gmap string Q)
    (P : problem pvar) (s : pvar -> Q) (t : string) (mc lc : Q) :
  multi_period_model products periods initial_inventory safety_stock
    production_cost holding_cost_rate demand machine_capacity labor_capacity
    machine_hours labor_hours = Some P ->
  feasible P s -> t ∈ periods ->
  machine_capacity !! t = Some mc -> labor_capacity !! t = Some lc ->
  0 < mc -> 0 < lc ->
  exists mu mpct lu lpct,
    resource_utilization products machine_capacity labor_capacity machine_hours
      labor_hours s t = Some (mu, mpct, lu, lpct) /\
    mu <= mc /\ mpct <= 100 /\ lu <= lc /\ lpct <= 100.
Proof.
  intros HP Hf Ht Hmc Hlc Hmc0 Hlc0.
  destruct (multi_period_feasible_facts products periods initial_inventory safety_stock
              production_cost holding_cost_rate demand machine_capacity labor_capacity
              machine_hours labor_hours P s HP Hf) as (_ & _ & Hcap & _).
  destruct (Hcap t Ht) as (mc' & lc' & Hmc' & Hlc' & Hhours & Hm & Hl).
  rewrite Hmc in Hmc'. injection Hmc' as <-. rewrite Hlc in Hlc'. injection Hlc' as <-.
  unfold resource_utilization.
  rewrite (mapM_lookup_Some machine_hours (fun h p => h * s (X p t)) products (fun p => p))
    by (intros p Hp; apply Hhours, Hp).
  rewrite (mapM_lookup_Some labor_hours (fun h p => h * s (X p t)) products (fun p => p))
    by (intros p Hp; apply Hhours, Hp).
  cbn [mbind option_bind]. rewrite Hmc, Hlc. cbn [mbind option_bind].
  rewrite (py_div_pos _ mc Hmc0), (py_div_pos _ lc Hlc0).
  cbn [mbind option_bind].
  set (mu := py_sum (map (fun p => qget machine_hours p * s (X p t)) products)).
  set (lu := py_sum (map (fun p => qget labor_hours p * s (X p t)) products)).
  assert (Hmu : mu <= mc) by (unfold mu; rewrite py_sum_fold_right; exact Hm).
  assert (Hlu : lu <= lc) by (unfold lu; rewrite py_sum_fold_right; exact Hl).
  exists mu, (mu / mc * 100), lu, (lu / lc * 100). split; [reflexivity|].
  assert (Hm1 : mu / mc <= 1) by (apply Qle_shift_div_r; [exact Hmc0|lra]).
  assert (Hl1 : lu / lc <= 1) by (apply Qle_shift_div_r; [exact Hlc0|lra]).
  repeat split; lra.
Qed.

Lemma resource_utilization_bounded_witness :
  exists P, multi_period_main = Some P /\ feasible P mp_plan /\
    exists mu mpct lu lpct,
      resource_utilization ["A"; "B"]
        {[ "January" := 3000; "February" := 2800; "March" := 3600 ]}
        {[ "January" := 2500; "February" := 2300; "March" := 2400 ]}
        {[ "A" := 3 # 2; "B" := 8 # 5 ]} {[ "A" := 11 # 10; "B" := 6 # 5 ]}
        mp_plan "March" = Some (mu, mpct, lu, lpct) /\
      mu <= 3600 /\ mpct <= 100 /\ lu <= 2400 /\ lpct <= 100.
Proof.
  destruct mp_main_feasible as (P & HP & Hf).
  exists P. split; [exact HP|]. split; [exact Hf|].
  unfold multi_period_main in HP.
  apply (resource_utilization_bounded _ _ _ _ _ _ _ _ _ _ _ P mp_plan "March" 3600 2400
           HP Hf).
  - right. right. left.
  - reflexivity.
  - reflexivity.
  - vm_compute. reflexivity.
  - vm_compute. reflexivity.
Defined.

(** ** X9 *)
(** Extra X9: with at least one product and no period, the multi-period
    model fails ([periods[-1]] raises [IndexError] in the safety stock
    rows, if no earlier lookup failed). *)
Theorem multi_period_no_periods (products : list string)
    (initial_inventory safety_stock production_cost : gmap string Q)
    (holding_cost_rate : Q) (demand : gmap (string * string) Q)
    (machine_capacity labor_capacity machine_hours labor_hours : gmap string Q) :
  products <> [] ->
  multi_period_model products [] initial_inventory safety_stock
    production_cost holding_cost_rate demand machine_capacity labor_capacity
    machine_hours labor_hours = None.
Proof.
  intros Hne.
  destruct (multi_period_model products [] _ _ _ _ _ _ _ _ _) as [P|] eqn:HP;
    [exfalso|reflexivity].
  destruct products as [|p ps]; [contradiction|].
  unfold multi_period_model in HP. simplify_option_eq; drop_add_constraints.
Qed.

Lemma multi_period_no_periods_witness :
  ["A"%string] <> [] /\
  multi_period_model ["A"] [] {[ "A" := 0 ]} {[ "A" := 0 ]} {[ "A" := 1 ]} 0 ∅ ∅ ∅
    {[ "A" := 1 ]} {[ "A" := 1 ]} = None.
Proof.
  assert (H : ["A"%string] <> []) by discriminate.
  split; [exact H|]. exact (multi_period_no_periods _ _ _ _ _ _ _ _ _ _ H).
Defined.

(** ** The rows of the production mix, with their meaning *)

Section MixFacts.
Variables (raw_materials products : list string)
          (octane_number material_cost max_available : gmap string Q)
          (octane_requirement selling_price demand : gmap string Q).

Lemma mix_feasible_facts (P : problem mvar) (s : mvar -> Q) :
  mix_model raw_materials products octane_number material_cost max_available
    octane_requirement selling_price demand = Some P ->
  feasible P s ->
  (forall i j, i ∈ raw_materials -> j ∈ products -> 0 <= s (Z i j)) /\
  (forall j, j ∈ products ->
     exists d, demand !! j = Some d /\ 0 <= s (Y j) /\ s (Y j) <= d) /\
  (forall i, i ∈ raw_materials ->
     exists ma, max_available !! i = Some ma /\
       fold_right Qplus 0 (map (fun j => s (Z i j)) products) <= ma) /\
  (forall j, j ∈ products ->
     fold_right Qplus 0 (map (fun i => s (Z i j)) raw_materials) == s (Y j)) /\
  (forall j, j ∈ products ->
     exists req, octane_requirement !! j = Some req /\
       (forall i, i ∈ raw_materials -> is_Some (octane_number !! i)) /\
       req * s (Y j) <=
       fold_right Qplus 0 (map (fun i => qget octane_number i * s (Z i j)) raw_materials)).
Proof.
  intros HP [Hvars Hcons]. unfold mix_model in HP. simplify_option_eq; drop_add_constraints.
  cbn [pvars pcons] in Hvars, Hcons.
  rewrite Forall_forall in Hvars. rewrite Forall_forall in Hcons.
  match goal with
  | Hy : mapM _ products = Some ?ys |- _ =>
      let T := type of ys in unify T (list (vardecl mvar)); rename Hy into Hydecl
  end.
  match goal with
  | Ha : mapM _ raw_materials = Some ?av |- _ =>
      let T := type of av in unify T (list (constraint mvar)); rename Ha into Havail
  end.
  match goal with
  | Ho : mapM _ products = Some ?oc |- _ =>
      let T := type of oc in unify T (list (constraint mvar)); rename Ho into Hoct
  end.
  split; [|split; [|split; [|split]]].
  - intros i j Hi Hj.
    assert (Hd : sat_vardecl s (mkVar (Z i j) (Some 0) None Continuous)).
    { apply Hvars. apply elem_of_app. left. apply list_elem_of_fmap. exists (i, j).
      split; [reflexivity|]. apply elem_of_list_prod. auto. }
    destruct Hd as [Hlow _]. exact Hlow.
  - intros j Hj.
    destruct (mapM_member _ _ _ j Hydecl Hj) as (dcl & Hdcl & Hin).
    destruct (demand !! j) as [d|] eqn:Hdj; cbn in Hdcl; [|discriminate].
    injection Hdcl as <-.
    assert (Hd : sat_vardecl s (mkVar (Y j) (Some 0) (Some d) Continuous)).
    { apply Hvars. apply elem_of_app. right. exact Hin. }
    destruct Hd as (Hlow & Hup & _). cbn in Hlow, Hup.
    exists d. auto.
  - intros i Hi.
    destruct (mapM_member _ _ _ i Havail Hi) as (c & Hc & Hin).
    destruct (max_available !! i) as [ma|] eqn:Hma; cbn in Hc; [|discriminate].
    injection Hc as <-.
    assert (Hsat := Hcons _ ltac:(apply elem_of_app; left; exact Hin)).
    unfold sat_constraint in Hsat. cbn [csense clhs crhs eval] in Hsat.
    rewrite eval_lpSum, map_map in Hsat. exists ma. split; [reflexivity|exact Hsat].
  - intros j Hj.
    assert (Hin : mkConstraint ("Mass_Balance_" +:+ j)
                    (lpSum (map (fun i => Var (Z i j)) raw_materials)) EQ (Var (Y j)) ∈
                  map (fun j => mkConstraint ("Mass_Balance_" +:+ j)
                    (lpSum (map (fun i => Var (Z i j)) raw_materials)) EQ (Var (Y j)))
                    products).
    { apply list_elem_of_fmap. exists j. split; [reflexivity|exact Hj]. }
    assert (Hsat := Hcons _ ltac:(apply elem_of_app; right; apply elem_of_app; left;
                                  exact Hin)).
    unfold sat_constraint in Hsat. cbn [csense clhs crhs eval] in Hsat.
    rewrite eval_lpSum, map_map in Hsat. exact Hsat.
  - intros j Hj.
    destruct (mapM_member _ _ _ j Hoct Hj) as (c & Hc & Hin).
    revert Hc.
    match goal with |- context [mapM ?f raw_materials] =>
      destruct (mapM f raw_materials) as [terms|] eqn:Hterms; cbn; [|discriminate] end.
    destruct (octane_requirement !! j) as [req|] eqn:Hreq; cbn; [|discriminate].
    intros Hc. injection Hc as <-.
    destruct (mapM_lookup_map octane_number (fun h i => Scale h (Var (Z i j)))
                raw_materials (fun i => i) terms Hterms) as [HonS ->].
    assert (Hsat := Hcons _ ltac:(apply elem_of_app; right; apply elem_of_app; right;
                                  exact Hin)).
    unfold sat_constraint in Hsat. cbn [csense clhs crhs eval] in Hsat.
    rewrite eval_lpSum, map_map in Hsat.
    exists req. split; [reflexivity|]. split; [exact HonS|exact Hsat].
Qed.

End MixFacts.

Lemma mapM_Some_map {A B} (f : A -> option B) (g : A -> B) (l : list A) :
  (forall a, a ∈ l -> f a = Some (g a)) -> mapM f l = Some (map g l).
Proof.
  induction l as [|a l IH]; intros H; cbn; [reflexivity|].
  rewrite (H a) by left. cbn. rewrite IH by (intros b Hb; apply H; right; exact Hb).
  reflexivity.
Qed.

(** [sum(x / y * c)] is [sum(x) / y * c]. *)
Lemma fold_right_Qplus_div {A} (f : A -> Q) (y c : Q) (l : list A) :
  fold_right Qplus 0 (map (fun a => f a / y * c) l) ==
  fold_right Qplus 0 (map f l) / y * c.
Proof.
  induction l as [|a l IH]; cbn.
  - unfold Qdiv. ring.
  - rewrite IH. unfold Qdiv. ring.
Qed.

(** ** X10 *)
(** Extra X10: at every feasible point of the production mix, the
    composition printed by product-mix.py's [main] for a produced product
    ([y[j] > 0.001]) is printed (no division by zero) and its percentages
    add up to 100. *)
Theorem mix_composition_total (raw_materials products : list string)
    (octane_number material_cost max_available : gmap string Q)
    (octane_requirement selling_price demand : gmap string Q)
    (P : problem mvar) (s : mvar -> Q) (j : string) :
  mix_model raw_materials products octane_number material_cost max_available
    octane_requirement selling_price demand = Some P ->
  feasible P s -> j ∈ products -> 1 # 1000 < s (Y j) ->
  exists ps, mix_composition raw_materials s j = Some ps /\ py_sum ps == 100.
Proof.
  intros HP Hf Hj Hy.
  destruct (mix_feasible_facts raw_materials products octane_number material_cost
              max_available octane_requirement selling_price demand P s HP Hf)
    as (_ & _ & _ & Hmass & _).
  unfold mix_composition.
  destruct (Qlt_le_dec (1 # 1000) (s (Y j))) as [_|Hle]; [|lra].
  eexists. split; [reflexivity|].
  rewrite py_sum_fold_right, (fold_right_Qplus_div (fun i => s (Z i j))).
  rewrite (Hmass j Hj). field.
  intros Hz. rewrite Hz in Hy. discriminate.
Qed.

Lemma mix_main_feasible :
  exists P, mix_main = Some P /\ feasible P mix_plan.
Proof.
  assert (H : exists P, mix_main = Some P /\ feasibleb P mix_plan = true).
  { eexists. split; [vm_compute; reflexivity|]. vm_compute. reflexivity. }
  destruct H as (P & HP & Hb). exists P. split; [exact HP|]. apply feasibleb_spec, Hb.
Qed.

Lemma mix_composition_total_witness :
  exists P, mix_main = Some P /\ feasible P mix_plan /\
    exists ps, mix_composition ["A"; "B"; "C"] mix_plan "Super" = Some ps /\
      py_sum ps == 100.
Proof.
  destruct mix_main_feasible as (P & HP & Hf).
  exists P. split; [exact HP|]. split; [exact Hf|].
  unfold mix_main in HP.
  apply (mix_composition_total _ _ _ _ _ _ _ _ P mix_plan "Super" HP Hf).
  - left.
  - vm_compute. reflexivity.
Defined.

(** ** X11 *)
(** Extra X11: at every feasible point of the production mix, the octane
    verification of product-mix.py's [main] for a produced product prints
    an achieved octane at least the requirement. *)
Theorem octane_verification_meets_requirement (raw_materials products : list string)
    (octane_number material_cost max_available : gmap string Q)
    (octane_requirement selling_price demand : gmap string Q)
    (P : problem mvar) (s : mvar -> Q) (j : string) :
  mix_model raw_materials products octane_number material_cost max_available
    octane_requirement selling_price demand = Some P ->
  feasible P s -> j ∈ products -> 1 # 1000 < s (Y j) ->
  exists req achieved,
    octane_verification raw_materials octane_number octane_requirement s j =
      Some (Some (req, achieved)) /\
    req <= achieved.
Proof.
  intros HP Hf Hj Hy.
  destruct (mix_feasible_facts raw_materials products octane_number material_cost
              max_available octane_requirement selling_price demand P s HP Hf)
    as (_ & _ & _ & _ & Hoct).
  destruct (Hoct j Hj) as (req & Hreq & HonS & Hge).
  unfold octane_verification.
  destruct (Qlt_le_dec (1 # 1000) (s (Y j))) as [_|Hle]; [|lra].
  rewrite (mapM_lookup_Some octane_number (fun h i => h * s (Z i j)) raw_materials
             (fun i => i) HonS).
  cbn [mbind option_bind]. rewrite Hreq. cbn [mbind option_bind].
  eexists _, _. split; [reflexivity|].
  apply Qle_shift_div_l; [lra|]. rewrite py_sum_fold_right.
  exact Hge.
Qed.

Lemma octane_verification_meets_requirement_witness :
  exists P, mix_main = Some P /\ feasible P mix_plan /\
    exists req achieved,
      octane_verification ["A"; "B"; "C"] {[ "A" := 120; "B" := 90; "C" := 130 ]}
        {[ "Super" := 94; "Unleaded" := 92; "Super_Unleaded" := 96 ]}
        mix_plan "Super" = Some (Some (req, achieved)) /\ req <= achieved.
Proof.
  destruct mix_main_feasible as (P & HP & Hf).
  exists P. split; [exact HP|]. split; [exact Hf|].
  unfold mix_main in HP.
  apply (octane_verification_meets_requirement _ _ _ _ _ _ _ _ P mix_plan "Super" HP Hf).
  - left.
  - vm_compute. reflexivity.
Defined.

(** ** X12 *)
(** Extra X12: at every feasible point of the production mix, the raw
    material report of product-mix.py's [main] for a raw material either
    raises [ZeroDivisionError] (its availability is zero) or prints a
    usage between 0 and the availability and a utilisation between 0% and
    100%. *)
Theorem mix_material_usage_bounded (raw_materials products : list string)
    (octane_number material_cost max_available : gmap string Q)
    (octane_requirement selling_price demand : gmap string Q)
    (P : problem mvar) (s : mvar -> Q) (i : string) :
  mix_model raw_materials products octane_number material_cost max_available
    octane_requirement selling_price demand = Some P ->
  feasible P s -> i ∈ raw_materials ->
  exists ma, max_available !! i = Some ma /\
    ((ma == 0 /\ mix_material_usage products max_available s i = None) \/
     (0 < ma /\ exists used pct,
        mix_material_usage products max_available s i = Some (used, pct) /\
        0 <= used /\ used <= ma /\ 0 <= pct /\ pct <= 100)).
Proof.
  intros HP Hf Hi.
  destruct (mix_feasible_facts raw_materials products octane_number material_cost
              max_available octane_requirement selling_price demand P s HP Hf)
    as (Hz & _ & Havail & _ & _).
  destruct (Havail i Hi) as (ma & Hma & Hle).
  exists ma. split; [exact Hma|].
  assert (Hused : 0 <= fold_right Qplus 0 (map (fun j => s (Z i j)) products))
    by (apply fold_right_Qplus_nonneg; intros j Hj; apply Hz; assumption).
  unfold mix_material_usage. rewrite Hma. cbn [mbind option_bind].
  destruct (Qeq_dec ma 0) as [H0|H0].
  - left. split; [exact H0|]. rewrite py_div_zero by exact H0. reflexivity.
  - right. assert (Hpos : 0 < ma).
    { apply Qle_lteq in Hle as [Hlt|Heq]; [lra|].
      apply Qle_lteq in Hused as [Hlt'|Heq']; [lra|].
      exfalso. apply H0. rewrite <- Heq, <- Heq'. reflexivity. }
    split; [exact Hpos|]. rewrite py_div_pos by exact Hpos. cbn [mbind option_bind].
    eexists _, _. split; [reflexivity|].
    assert (Hu := py_sum_fold_right (map (fun j => s (Z i j)) products)).
    set (u := py_sum (map (fun j => s (Z i j)) products)) in *.
    assert (Hu0 : 0 <= u) by (rewrite Hu; exact Hused).
    assert (Hum : u <= ma) by (rewrite Hu; exact Hle).
    assert (H1 : u / ma <= 1) by (apply Qle_shift_div_r; [exact Hpos|lra]).
    assert (H2 : 0 <= u / ma) by (apply Qle_shift_div_l; [exact Hpos|lra]).
    repeat split; lra.
Qed.

Lemma mix_material_usage_bounded_witness :
  exists P, mix_main = Some P /\ feasible P mix_plan /\
    exists ma, ({[ "A" := 1000; "B" := 1200; "C" := 700 ]} : gmap string Q) !! "A" = Some ma /\
      ((ma == 0 /\ mix_material_usage ["Super"; "Unleaded"; "Super_Unleaded"]
                     {[ "A" := 1000; "B" := 1200; "C" := 700 ]} mix_plan "A" = None) \/
       (0 < ma /\ exists used pct,
          mix_material_usage ["Super"; "Unleaded"; "Super_Unleaded"]
            {[ "A" := 1000; "B" := 1200; "C" := 700 ]} mix_plan "A" = Some (used, pct) /\
          0 <= used /\ used <= ma /\ 0 <= pct /\ pct <= 100)).
Proof.
  destruct mix_main_feasible as (P & HP & Hf).
  exists P. split; [exact HP|]. split; [exact Hf|].
  unfold mix_main in HP.
  apply (mix_material_usage_bounded _ _ _ _ _ _ _ _ P mix_plan "A" HP Hf).
  left.
Defined.

Lemma proportions_lookup (raw_materials products : list string) (s : mvar -> Q)
    (i j : string) :
  i ∈ raw_materials -> j ∈ products ->
  proportions raw_materials products s !! (i, j) =
  Some (if Qlt_le_dec (1 # 1000) (s (Y j)) then s (Z i j) / s (Y j) else 0).
Proof.
  intros Hi Hj. unfold proportions.
  rewrite (dict_of_list_lookup_fun (fun k => if Qlt_le_dec (1 # 1000) (s (Y k.2))
                                           then s (Z k.1 k.2) / s (Y k.2) else 0)).
  - rewrite decide_True; [reflexivity|].
    apply list_elem_of_fmap. exists ((i, j), if Qlt_le_dec (1 # 1000) (s (Y j))
                                           then s (Z i j) / s (Y j) else 0).
    split; [reflexivity|]. apply list_elem_of_In, in_concat.
    exists (if Qlt_le_dec (1 # 1000) (s (Y j))
            then map (fun i => ((i, j), s (Z i j) / s (Y j))) raw_materials
            else map (fun i => ((i, j), 0)) raw_materials).
    split.
    + apply list_elem_of_In, list_elem_of_fmap. exists j. split; [reflexivity|exact Hj].
    + apply list_elem_of_In. destruct (Qlt_le_dec (1 # 1000) (s (Y j)));
        apply list_elem_of_fmap; exists i; (split; [reflexivity|exact Hi]).
  - intros kv Hkv. apply list_elem_of_In, in_concat in Hkv as (l & Hl & Hkv).
    apply list_elem_of_In, list_elem_of_fmap in Hl as (j' & -> & _).
    apply list_elem_of_In in Hkv. cbn.
    destruct (Qlt_le_dec (1 # 1000) (s (Y j'))) as [Hp|Hp];
      apply list_elem_of_fmap in Hkv as (i' & -> & _); cbn;
      destruct (Qlt_le_dec (1 # 1000) (s (Y j'))); reflexivity || lra.
Qed.

(** ** X13 *)
(** Extra X13: at every feasible point of the production mix, for a
    produced product the composition chart of product-mix.py's
    [plot_results] reads every proportion it stacks from the table it
    built, the stacked bar reaches 1, and the octane annotated above the
    bar is at least the requirement printed beside it. *)
Theorem plot_composition_and_octane (raw_materials products : list string)
    (octane_number material_cost max_available : gmap string Q)
    (octane_requirement selling_price demand : gmap string Q)
    (P : problem mvar) (s : mvar -> Q) (j : string) :
  mix_model raw_materials products octane_number material_cost max_available
    octane_requirement selling_price demand = Some P ->
  feasible P s -> j ∈ products -> 1 # 1000 < s (Y j) ->
  (exists ps, mapM (fun i => proportions raw_materials products s !! (i, j))
                raw_materials = Some ps /\ py_sum ps == 1) /\
  (exists w req,
     plot_weighted_octane raw_materials octane_number
       (proportions raw_materials products s) j = Some w /\
     octane_requirement !! j = Some req /\ req <= w).
Proof.
  intros HP Hf Hj Hy.
  destruct (mix_feasible_facts raw_materials products octane_number material_cost
              max_available octane_requirement selling_price demand P s HP Hf)
    as (_ & _ & _ & Hmass & Hoct).
  assert (Hy0 : ~ s (Y j) == 0) by (intros Hz; rewrite Hz in Hy; discriminate).
  assert (Hlk : forall i, i ∈ raw_materials ->
            proportions raw_materials products s !! (i, j) = Some (s (Z i j) / s (Y j))).
  { intros i Hi. rewrite proportions_lookup by assumption.
    destruct (Qlt_le_dec (1 # 1000) (s (Y j))); [reflexivity|lra]. }
  split.
  - exists (map (fun i => s (Z i j) / s (Y j)) raw_materials). split.
    + apply mapM_Some_map. exact Hlk.
    + rewrite py_sum_fold_right.
      assert (E := fold_right_Qplus_div (fun i => s (Z i j)) (s (Y j)) 1 raw_materials).
      rewrite (Hmass j Hj) in E.
      rewrite <- (fold_right_Qplus_ext (fun i => s (Z i j) / s (Y j) * 1)).
      * rewrite E. field. exact Hy0.
      * intros i _. ring.
  - destruct (Hoct j Hj) as (req & Hreq & HonS & Hge).
    unfold plot_weighted_octane.
    rewrite (mapM_Some_map _ (fun i => qget octane_number i * (s (Z i j) / s (Y j)))).
    + cbn [mbind option_bind]. eexists _, _. split; [reflexivity|]. split; [exact Hreq|].
      rewrite py_sum_fold_right.
      rewrite <- (fold_right_Qplus_ext (fun i => qget octane_number i * s (Z i j) / s (Y j) * 1)).
      * rewrite fold_right_Qplus_div.
        assert (Hpos : 0 < s (Y j)) by lra.
        set (T := fold_right Qplus 0
          (map (fun i => qget octane_number i * s (Z i j)) raw_materials)) in *.
        assert (E : T / s (Y j) * 1 == T / s (Y j)) by ring.
        rewrite E.
        apply Qle_shift_div_l; [exact Hpos|exact Hge].
      * intros i _. field. exact Hy0.
    + intros i Hi. destruct (HonS i Hi) as [on Hon]. rewrite Hon. cbn [mbind option_bind].
      rewrite (Hlk i Hi). cbn [mbind option_bind]. unfold qget. rewrite Hon. reflexivity.
Qed.

Lemma plot_composition_and_octane_witness :
  exists P, mix_main = Some P /\ feasible P mix_plan /\
  ((exists ps, mapM (fun i => proportions ["A"; "B"; "C"]
                  ["Super"; "Unleaded"; "Super_Unleaded"] mix_plan !! (i, "Super"))
                ["A"; "B"; "C"] = Some ps /\ py_sum ps == 1) /\
   (exists w req,
      plot_weighted_octane ["A"; "B"; "C"] {[ "A" := 120; "B" := 90; "C" := 130 ]}
        (proportions ["A"; "B"; "C"] ["Super"; "Unleaded"; "Super_Unleaded"] mix_plan)
        "Super" = Some w /\
      ({[ "Super" := 94; "Unleaded" := 92; "Super_Unleaded" := 96 ]} : gmap string Q) !! "Super" = Some req /\
      req <= w)).
Proof.
  destruct mix_main_feasible as (P & HP & Hf).
  exists P. split; [exact HP|]. split; [exact Hf|].
  unfold mix_main in HP.
  apply (plot_composition_and_octane _ _ _ _ _ _ _ _ P mix_plan "Super" HP Hf).
  - left.
  - vm_compute. reflexivity.
Defined.

(** ** Key splitting, in general *)

Lemma split_once_Some (s a b : string) :
  split_once s = Some (a, b) -> s = a +:+ String "_" b /\ count_underscores a = 0%nat.
Proof.
  revert a b. induction s as [|c s IH]; intros a b; cbn; [discriminate|].
  destruct (is_underscore c) eqn:Hc; cbv iota.
  - intros H. injection H as <- <-. unfold is_underscore in Hc.
    apply Ascii.eqb_eq in Hc. subst c. split; reflexivity.
  - destruct (split_once s) as [[a' b']|] eqn:E; [|discriminate].
    intros H. injection H as <- <-. destruct (IH a' b' eq_refl) as [-> Ha].
    split; [reflexivity|]. cbn. rewrite Hc. exact Ha.
Qed.

Lemma split_once_None (s : string) :
  split_once s = None -> count_underscores s = 0%nat.
Proof.
  induction s as [|c s IH]; cbn; [reflexivity|]. intros H.
  destruct (is_underscore c); [discriminate|].
  destruct (split_once s) as [[a b]|]; [discriminate|]. apply IH. reflexivity.
Qed.

Lemma count_underscores_app (a b : string) :
  count_underscores (a +:+ b) = (count_underscores a + count_underscores b)%nat.
Proof.
  induction a as [|c a IH]; [reflexivity|]. rewrite string_app_cons. cbn.
  rewrite IH. lia.
Qed.

Lemma count_underscores_sep (b : string) :
  count_underscores (String "_" b) = S (count_underscores b).
Proof. reflexivity. Qed.

Lemma py_in_underscore_zero (s : string) :
  count_underscores s = 0%nat -> py_in_underscore s = false.
Proof.
  induction s as [|c s IH]; cbn; [reflexivity|].
  destruct (is_underscore c); cbn; [discriminate|]. exact IH.
Qed.

(** ** X14 *)
(** Extra X14: the key-splitting step of server.py's [optimize_inventory]
    skips exactly the keys without underscore; otherwise the product it
    builds always holds exactly one underscore; a key with two or more
    underscores is cut at its second underscore, so product, ["_"] and
    period give the key back; a key with a single underscore becomes the
    product itself, and the period is the text after its underscore. *)
Theorem split_key_shape (key : string) :
  (split_key key = None <-> count_underscores key = 0%nat) /\
  (forall p t, split_key key = Some (p, t) ->
     count_underscores p = 1%nat /\
     (2 <= count_underscores key -> p +:+ "_" +:+ t = key)%nat /\
     (count_underscores key = 1%nat -> p = key /\ exists a, key = a +:+ String "_" t)).
Proof.
  unfold split_key, py_split1.
  destruct (split_once key) as [[a b]|] eqn:E.
  - destruct (split_once_Some key a b E) as [-> Ha].
    rewrite count_underscores_app, count_underscores_sep, Ha. cbn [Nat.add].
    unfold py_split_head.
    destruct (split_once b) as [[c d]|] eqn:Eb.
    + destruct (split_once_Some b c d Eb) as [-> Hc].
      rewrite py_in_underscore_app.
      rewrite count_underscores_app, count_underscores_sep, Hc. cbn [Nat.add].
      split; [split; [discriminate|lia]|].
      intros p t H. injection H as <- <-.
      rewrite !string_app_cons, !string_app_nil.
      split; [rewrite count_underscores_app, count_underscores_sep, Ha, Hc; reflexivity|].
      split; [|lia].
      intros _. rewrite string_app_assoc, string_app_cons. reflexivity.
    + assert (Hb := split_once_None b Eb).
      rewrite (py_in_underscore_zero b Hb), Hb.
      split; [split; [discriminate|lia]|].
      intros p t H. injection H as <- <-.
      rewrite !string_app_cons, !string_app_nil.
      split; [rewrite count_underscores_app, count_underscores_sep, Ha, Hb; reflexivity|].
      split; [lia|]. intros _. split; [reflexivity|]. exists a. reflexivity.
  - assert (Hk := split_once_None key E). rewrite Hk.
    split; [split; reflexivity|]. intros p t H. discriminate.
Qed.
